(** * WebSocket inbound transport and its transport session

    A shallow embedding of [WsInboundTransport] and [WebSocketTransportSession]
    (samples/WsInboundTransport.ts).  The code is event driven: every callback
    it registers (socket listeners, the timer behind [delay], the completion
    callback handed to [socket.send]) is kept in an explicit [World], and the
    Node.js event loop is a [step] function that delivers one [Event] at a time.
    Calls made on collaborators (logger, socket, message receiver, transport
    service) are appended to a [trace]. *)

From Stdlib Require Import String NArith Lia.
From stdpp Require Import base option list strings gmap.

Local Open Scope string_scope.
Local Open Scope list_scope.
Local Open Scope nat_scope.

(** ** What the code takes from its platform *)

(** [EncryptedMessage] and the parsed inbound value are types of
    @aries-framework/core; [JSON.stringify], [JSON.parse] and [utils.uuid]
    are library functions.  [JSON_parse] returns [inr e] when [JSON.parse]
    throws, [e] being the text of the thrown error; [uuid n] is the value of
    the [n]-th call of [utils.uuid()]. *)
Class Platform := {
  EncryptedMessage : Type;
  Json : Type;
  JSON_stringify : EncryptedMessage → string;
  JSON_parse : string → Json + string;
  uuid : nat → string;
}.

(** ** Data *)

(** [WebSocket.readyState] of the ws library. *)
Inductive ReadyState := CONNECTING | OPEN | CLOSING | CLOSED.

#[global] Instance ReadyState_eq_dec : EqDecision ReadyState.
Proof. solve_decision. Defined.

Inductive LogLevel := LvlDebug | LvlError.

Inductive JsError := AriesFrameworkError (message : string).

#[global] Instance JsError_eq_dec : EqDecision JsError.
Proof. solve_decision. Defined.

(** The state of the promise returned by an [async] method. *)
Inductive PromiseState := Pending | Resolved | Rejected (e : JsError).

#[global] Instance PromiseState_eq_dec : EqDecision PromiseState.
Proof. solve_decision. Defined.

(** Object identities: a ws socket, the activation of one [send] call, a
    timer returned by [setTimeout]. *)
Abbreviation SocketRef := nat.
Abbreviation CallId := nat.
Abbreviation TimerId := nat.

(** The part of [Agent] the transport reads: [agent.config.endpoints]; the
    agent is otherwise the owner of the [MessageReceiver] and the
    [TransportService] resolved from its dependency manager. *)
Record Agent := { agent_ref : nat; endpoints : list string }.

#[global] Instance Agent_eq_dec : EqDecision Agent.
Proof. solve_decision. Defined.

(** [WebSocketTransportSession]: fields [id] and [socket]; [type] is the
    constant below and the logger is the one sink of the trace. *)
Record Session := { session_id : string; session_socket : SocketRef }.

#[global] Instance Session_eq_dec : EqDecision Session.
Proof. solve_decision. Defined.

Definition session_type : string := "WebSocket".

(** Calls on collaborators, in the order the code makes them. *)
Inductive Action `{Platform} :=
| Log (level : LogLevel) (message : string) (data : option string)
| SocketPing (socket : SocketRef) (data : string)
| SocketSend (socket : SocketRef) (data : string) (cb : CallId)
| SocketClose (socket : SocketRef)
| ReceiveMessage (agent : Agent) (inbound : Json) (session : Session)
| RemoveSession (agent : Agent) (session : Session)
| Uncaught (e : JsError).

(** The listener [send] registers with [socket.once("pong", ...)]: a closure
    over [this], [encryptedMessage] and the locals of the call. *)
Record PongListener `{Platform} := {
  pl_this : Session;
  pl_message : EncryptedMessage;
  pl_call : CallId;
}.

(** A ws socket, as far as the code observes it. *)
Record WebSocket `{Platform} := {
  readyState : ReadyState;
  pongOnce : list PongListener;
  messageListeners : list (Agent * Session);
  closeListeners : list (Agent * Session);
}.

(** The locals of one [send] call that outlive its synchronous part, and the
    promise it returned. *)
Record SendCall := {
  success : bool;
  timeoutId : option TimerId;
  promise : PromiseState;
}.

(** A pending [setTimeout(resolve, ms)] of [delay]: firing it resumes the
    [send] call that awaits the promise. *)
Record Timer := { due : N; resumes : CallId }.

Record World `{Platform} := mkWorld {
  now : N;
  sockets : gmap nat WebSocket;
  connectionListeners : list Agent;
  socketIds : gmap string nat;
  uuidCalls : nat;
  calls : list SendCall;
  timers : gmap nat Timer;
  nextTimer : nat;
  writeCallbacks : gmap nat nat;
  nextWrite : nat;
  receiving : gset nat;
  nextReceive : nat;
  trace : list Action;
}.

Definition new_socket `{Platform} : WebSocket :=
  {| readyState := CONNECTING; pongOnce := []; messageListeners := [];
     closeListeners := [] |}.

Definition init `{Platform} : World :=
  {| now := 0%N; sockets := ∅; connectionListeners := []; socketIds := ∅;
     uuidCalls := 0; calls := []; timers := ∅; nextTimer := 0;
     writeCallbacks := ∅; nextWrite := 0; receiving := ∅; nextReceive := 0;
     trace := [] |}.

Definition the_socket `{Platform} (w : World) (r : SocketRef) : WebSocket :=
  default new_socket (sockets w !! r).

(** ** Primitive effects *)

Definition emit `{Platform} (a : Action) (w : World) : World :=
  mkWorld _ (now w) (sockets w) (connectionListeners w) (socketIds w)
    (uuidCalls w) (calls w) (timers w) (nextTimer w) (writeCallbacks w)
    (nextWrite w) (receiving w) (nextReceive w) (trace w ++ [a]).

Definition set_sockets `{Platform} (m : gmap nat WebSocket) (w : World) : World :=
  mkWorld _ (now w) m (connectionListeners w) (socketIds w)
    (uuidCalls w) (calls w) (timers w) (nextTimer w) (writeCallbacks w)
    (nextWrite w) (receiving w) (nextReceive w) (trace w).

Definition upd_socket `{Platform} (r : SocketRef) (f : WebSocket → WebSocket)
    (w : World) : World :=
  set_sockets (<[r := f (the_socket w r)]> (sockets w)) w.

Definition set_calls `{Platform} (l : list SendCall) (w : World) : World :=
  mkWorld _ (now w) (sockets w) (connectionListeners w) (socketIds w)
    (uuidCalls w) l (timers w) (nextTimer w) (writeCallbacks w)
    (nextWrite w) (receiving w) (nextReceive w) (trace w).

Definition upd_call `{Platform} (k : CallId) (f : SendCall → SendCall)
    (w : World) : World :=
  set_calls (alter f k (calls w)) w.

Definition set_readyState `{Platform} (st : ReadyState) (s : WebSocket) : WebSocket :=
  {| readyState := st; pongOnce := pongOnce s;
     messageListeners := messageListeners s;
     closeListeners := closeListeners s |}.

Definition set_pongOnce `{Platform} (l : list PongListener) (s : WebSocket) : WebSocket :=
  {| readyState := readyState s; pongOnce := l;
     messageListeners := messageListeners s;
     closeListeners := closeListeners s |}.

Definition add_messageListener `{Platform} (l : Agent * Session) (s : WebSocket) : WebSocket :=
  {| readyState := readyState s; pongOnce := pongOnce s;
     messageListeners := messageListeners s ++ [l];
     closeListeners := closeListeners s |}.

Definition add_closeListener `{Platform} (l : Agent * Session) (s : WebSocket) : WebSocket :=
  {| readyState := readyState s; pongOnce := pongOnce s;
     messageListeners := messageListeners s;
     closeListeners := closeListeners s ++ [l] |}.

(** [setTimeout(cb, ms)]: a fresh timer, due [ms] milliseconds from now. *)
Definition setTimeout `{Platform} (ms : N) (k : CallId) (w : World) : TimerId * World :=
  (nextTimer w,
   mkWorld _ (now w) (sockets w) (connectionListeners w) (socketIds w)
     (uuidCalls w) (calls w)
     (<[nextTimer w := {| due := (now w + ms)%N; resumes := k |}]> (timers w))
     (S (nextTimer w)) (writeCallbacks w)
     (nextWrite w) (receiving w) (nextReceive w) (trace w)).

Definition set_timers `{Platform} (m : gmap nat Timer) (w : World) : World :=
  mkWorld _ (now w) (sockets w) (connectionListeners w) (socketIds w)
    (uuidCalls w) (calls w) m (nextTimer w) (writeCallbacks w)
    (nextWrite w) (receiving w) (nextReceive w) (trace w).

(** [clearTimeout(t)]; clearing [null] or a timer that already fired does
    nothing. *)
Definition clearTimeout `{Platform} (t : option TimerId) (w : World) : World :=
  match t with
  | Some tid => set_timers (delete tid (timers w)) w
  | None => w
  end.

(** [socket.send(data, cb)] of ws: the data is handed to the socket and [cb]
    is kept until the socket reports the outcome of the write. *)
Definition socket_send `{Platform} (r : SocketRef) (data : string) (k : CallId)
    (w : World) : World :=
  let w := emit (SocketSend r data k) w in
  mkWorld _ (now w) (sockets w) (connectionListeners w) (socketIds w)
    (uuidCalls w) (calls w) (timers w) (nextTimer w)
    (<[nextWrite w := k]> (writeCallbacks w))
    (S (nextWrite w)) (receiving w) (nextReceive w) (trace w).

Definition set_writeCallbacks `{Platform} (m : gmap nat nat) (w : World) : World :=
  mkWorld _ (now w) (sockets w) (connectionListeners w) (socketIds w)
    (uuidCalls w) (calls w) (timers w) (nextTimer w) m
    (nextWrite w) (receiving w) (nextReceive w) (trace w).

(** [socket.close()] of ws on an open socket: the socket is CLOSING when the
    call returns. *)
Definition socket_close `{Platform} (r : SocketRef) (w : World) : World :=
  emit (SocketClose r) (upd_socket r (set_readyState CLOSING) w).

(** [messageReceiver.receiveMessage(inbound, { session })]: the call is made
    now, its promise settles in a later turn of the event loop. *)
Definition receiveMessage `{Platform} (agent : Agent) (inbound : Json)
    (session : Session) (w : World) : World :=
  let w := emit (ReceiveMessage agent inbound session) w in
  mkWorld _ (now w) (sockets w) (connectionListeners w) (socketIds w)
    (uuidCalls w) (calls w) (timers w) (nextTimer w) (writeCallbacks w)
    (nextWrite w) ({[nextReceive w]} ∪ receiving w) (S (nextReceive w)) (trace w).

Definition set_receiving `{Platform} (s : gset nat) (w : World) : World :=
  mkWorld _ (now w) (sockets w) (connectionListeners w) (socketIds w)
    (uuidCalls w) (calls w) (timers w) (nextTimer w) (writeCallbacks w)
    (nextWrite w) s (nextReceive w) (trace w).

Definition set_now `{Platform} (t : N) (w : World) : World :=
  mkWorld _ t (sockets w) (connectionListeners w) (socketIds w)
    (uuidCalls w) (calls w) (timers w) (nextTimer w) (writeCallbacks w)
    (nextWrite w) (receiving w) (nextReceive w) (trace w).

(** ** WebSocketTransportSession *)

Module WebSocketTransportSession.

Definition closed_error : JsError :=
  AriesFrameworkError (session_type ++ " transport session has been closed.").

(** Thrown inside the callback of [socket.send] (line 374). *)
Definition write_error : JsError :=
  AriesFrameworkError (session_type ++ " send message failed.").

(** Thrown by [send] itself after the wait (line 386). *)
Definition ping_error : JsError :=
  AriesFrameworkError (session_type ++ " send message failed.").

(** The bound of the wait: [delay(10000, ...)]. *)
Definition delay_ms : N := 10000.

Definition set_success (b : bool) (c : SendCall) : SendCall :=
  {| success := b; timeoutId := timeoutId c; promise := promise c |}.

Definition set_timeoutId (t : option TimerId) (c : SendCall) : SendCall :=
  {| success := success c; timeoutId := t; promise := promise c |}.

Definition set_promise (p : PromiseState) (c : SendCall) : SendCall :=
  {| success := success c; timeoutId := timeoutId c; promise := p |}.

(** The synchronous part of [send], up to [await delay(10000, ...)].  The
    second argument of [delay] is never used by [delay]. *)
Definition send `{Platform} (this : Session) (encryptedMessage : EncryptedMessage)
    (w : World) : World * CallId :=
  let k := length (calls w) in
  if decide (readyState (the_socket w (session_socket this)) = OPEN) then
    let w := set_calls (calls w ++
               [{| success := false; timeoutId := None; promise := Pending |}]) w in
    let w := upd_socket (session_socket this)
               (λ s, set_pongOnce (pongOnce s ++
                  [{| pl_this := this; pl_message := encryptedMessage;
                      pl_call := k |}]) s) w in
    let w := emit (SocketPing (session_socket this) "ping") w in
    let '(tid, w) := setTimeout delay_ms k w in
    (upd_call k (set_timeoutId (Some tid)) w, k)
  else
    (set_calls (calls w ++
       [{| success := false; timeoutId := None;
           promise := Rejected closed_error |}]) w, k).

(** The listener of "pong": [this.socket.send(JSON.stringify(encryptedMessage), cb)]. *)
Definition on_pong `{Platform} (l : PongListener) (w : World) : World :=
  socket_send (session_socket (pl_this l)) (JSON_stringify (pl_message l))
    (pl_call l) w.

(** The callback of [socket.send]; [error] is [None] for [undefined].  The
    [throw] happens in the caller of the callback, outside of [send]. *)
Definition on_sent `{Platform} (k : CallId) (error : option string) (w : World) : World :=
  match error with
  | Some e =>
      let w := emit (Log LvlError ("Error sending message: " ++ e) None) w in
      emit (Uncaught write_error) w
  | None =>
      let w := emit (Log LvlDebug (session_type ++ " sent message successfully.") None) w in
      let w := upd_call k (set_success true) w in
      clearTimeout (c ← calls w !! k; timeoutId c) w
  end.

(** The rest of [send], run when the promise of [delay] resolves. *)
Definition resume `{Platform} (k : CallId) (w : World) : World :=
  match calls w !! k with
  | Some c =>
      if success c then upd_call k (set_promise Resolved) w
      else
        let w := emit (Log LvlError "Error pinging endpoint" None) w in
        upd_call k (set_promise (Rejected ping_error)) w
  | None => w
  end.

(** [close()]: the returned promise is always resolved. *)
Definition close `{Platform} (this : Session) (w : World) : World * PromiseState :=
  if decide (readyState (the_socket w (session_socket this)) = OPEN) then
    (socket_close (session_socket this) w, Resolved)
  else (w, Resolved).

End WebSocketTransportSession.

(** ** WsInboundTransport *)

Module WsInboundTransport.

(** Property names every object literal inherits from [Object.prototype]:
    [this.socketIds[k]] is truthy for them although [socketIds] is [{}]. *)
Definition Object_prototype_keys : list string :=
  ["constructor"; "__proto__"; "hasOwnProperty"; "isPrototypeOf";
   "propertyIsEnumerable"; "toLocaleString"; "toString"; "valueOf";
   "__defineGetter__"; "__defineSetter__"; "__lookupGetter__";
   "__lookupSetter__"].

(** [!!this.socketIds[socketId]]: every stored value is a socket object. *)
Definition has_socketId `{Platform} (w : World) (socketId : string) : bool :=
  bool_decide (is_Some (socketIds w !! socketId))
  || bool_decide (socketId ∈ Object_prototype_keys).

Definition set_socketIds `{Platform} (m : gmap string nat) (w : World) : World :=
  mkWorld _ (now w) (sockets w) (connectionListeners w) m
    (uuidCalls w) (calls w) (timers w) (nextTimer w) (writeCallbacks w)
    (nextWrite w) (receiving w) (nextReceive w) (trace w).

Definition next_uuid `{Platform} (w : World) : string * World :=
  (uuid (uuidCalls w),
   mkWorld _ (now w) (sockets w) (connectionListeners w) (socketIds w)
     (S (uuidCalls w)) (calls w) (timers w) (nextTimer w) (writeCallbacks w)
     (nextWrite w) (receiving w) (nextReceive w) (trace w)).

(** [socket.addEventListener('message', ...)] *)
Definition listenOnWebSocketMessages `{Platform} (agent : Agent) (socket : SocketRef)
    (session : Session) (w : World) : World :=
  upd_socket socket (add_messageListener (agent, session)) w.

(** The listener of 'message', up to the [await]. *)
Definition on_message `{Platform} (data url : string) (l : Agent * Session)
    (w : World) : World :=
  let w := emit (Log LvlDebug "WebSocket message event received." (Some url)) w in
  match JSON_parse data with
  | inl inbound => receiveMessage l.1 inbound l.2 w
  | inr e => emit (Log LvlError ("Error processing message: " ++ e) None) w
  end.

(** The [catch] of the listener, when the promise of [receiveMessage] settles. *)
Definition on_received `{Platform} (error : option string) (w : World) : World :=
  match error with
  | Some e => emit (Log LvlError ("Error processing message: " ++ e) None) w
  | None => w
  end.

(** The listener of 'close'. *)
Definition on_close `{Platform} (l : Agent * Session) (w : World) : World :=
  let w := emit (Log LvlDebug "Socket closed." None) w in
  emit (RemoveSession l.1 l.2) w.

(** The listener of 'connection' registered by [start(agent)]. *)
Definition on_connection `{Platform} (socket : SocketRef) (agent : Agent)
    (w : World) : World :=
  let '(socketId, w) := next_uuid w in
  let w := emit (Log LvlDebug "Socket connected." None) w in
  if has_socketId w socketId then
    emit (Log LvlDebug ("Socket with id " ++ socketId ++ " already exists.") None) w
  else
    let w := emit (Log LvlDebug ("Saving new socket with id " ++ socketId ++ ".") None) w in
    let w := set_socketIds (<[socketId := socket]> (socketIds w)) w in
    let session := {| session_id := socketId; session_socket := socket |} in
    let w := listenOnWebSocketMessages agent socket session w in
    upd_socket socket (add_closeListener (agent, session)) w.

Definition start `{Platform} (agent : Agent) (w : World) : World :=
  let wsEndpoint := List.find (String.prefix "ws") (endpoints agent) in
  let w := emit (Log LvlDebug "Starting WS inbound transport" wsEndpoint) w in
  mkWorld _ (now w) (sockets w) (connectionListeners w ++ [agent]) (socketIds w)
    (uuidCalls w) (calls w) (timers w) (nextTimer w) (writeCallbacks w)
    (nextWrite w) (receiving w) (nextReceive w) (trace w).

End WsInboundTransport.

(** ** The event loop *)

Inductive Event `{Platform} :=
| EvStart (agent : Agent)
| EvConnection (socket : SocketRef)
| EvReadyState (socket : SocketRef) (st : ReadyState)
| EvMessage (socket : SocketRef) (data url : string)
| EvReceived (k : nat) (error : option string)
| EvClose (socket : SocketRef)
| EvPong (socket : SocketRef)
| EvSent (wid : nat) (error : option string)
| EvTick (dt : N)
| EvTimer (tid : TimerId)
| EvSend (session : Session) (encryptedMessage : EncryptedMessage)
| EvSessionClose (session : Session).

(** Runs each listener of a list in registration order. *)
Definition dispatch `{Platform} {A} (h : A → World → World) (ls : list A)
    (w : World) : World :=
  foldl (λ w l, h l w) w ls.

Definition step `{Platform} (e : Event) (w : World) : World :=
  match e with
  | EvStart agent => WsInboundTransport.start agent w
  | EvConnection r =>
      dispatch (WsInboundTransport.on_connection r) (connectionListeners w) w
  | EvReadyState r st => upd_socket r (set_readyState st) w
  | EvMessage r data url =>
      dispatch (WsInboundTransport.on_message data url)
        (messageListeners (the_socket w r)) w
  | EvReceived k error =>
      if decide (k ∈ receiving w) then
        WsInboundTransport.on_received error
          (set_receiving (receiving w ∖ {[k]}) w)
      else w
  | EvClose r =>
      let w := upd_socket r (set_readyState CLOSED) w in
      dispatch WsInboundTransport.on_close (closeListeners (the_socket w r)) w
  | EvPong r =>
      let ls := pongOnce (the_socket w r) in
      let w := upd_socket r (set_pongOnce []) w in
      dispatch WebSocketTransportSession.on_pong ls w
  | EvSent wid error =>
      match writeCallbacks w !! wid with
      | Some k =>
          WebSocketTransportSession.on_sent k error
            (set_writeCallbacks (delete wid (writeCallbacks w)) w)
      | None => w
      end
  | EvTick dt => set_now (now w + dt)%N w
  | EvTimer tid =>
      match timers w !! tid with
      | Some t =>
          if decide (due t ≤ now w)%N then
            WebSocketTransportSession.resume (resumes t)
              (set_timers (delete tid (timers w)) w)
          else w
      | None => w
      end
  | EvSend session encryptedMessage =>
      (WebSocketTransportSession.send session encryptedMessage w).1
  | EvSessionClose session => (WebSocketTransportSession.close session w).1
  end.

Definition run `{Platform} (es : list Event) (w : World) : World :=
  foldl (λ w e, step e w) w es.

(** ** Observations on a world *)

Import WebSocketTransportSession WsInboundTransport.

(** The [socket.send] calls of a trace: socket, data and the call whose
    callback was passed. *)
Definition sends `{Platform} (tr : list Action) : list (nat * string * nat) :=
  omap (λ a, match a with SocketSend r d k => Some (r, d, k) | _ => None end) tr.

(** What the "pong" listener [l] hands to [socket.send]. *)
Definition pong_send `{Platform} (l : PongListener) : nat * string * nat :=
  (session_socket (pl_this l), JSON_stringify (pl_message l), pl_call l).

(** The promise returned by the [k]-th call of [send]. *)
Definition promise_of `{Platform} (w : World) (k : CallId) : option PromiseState :=
  promise <$> calls w !! k.

(** The payload writes made on behalf of call [k]. *)
Definition sends_of `{Platform} (k : CallId) (w : World) : list (nat * string * nat) :=
  filter (λ x, x.2 = k) (sends (trace w)).

(** The "pong" listeners of call [k] still registered on socket [r]. *)
Definition subscribed `{Platform} (k : CallId) (w : World) (r : SocketRef) :
    list PongListener :=
  filter (λ l, pl_call l = k) (pongOnce (the_socket w r)).

(** The [transportService.removeSession(s)] calls of a trace. *)
Definition removed `{Platform} (s : Session) (tr : list Action) : list Session :=
  filter (λ s', s' = s)
    (omap (λ a, match a with RemoveSession _ s' => Some s' | _ => None end) tr).

(** What one 'message' listener logs for a frame that does not parse. *)
Definition received_log `{Platform} (url e : string) : list Action :=
  [Log LvlDebug "WebSocket message event received." (Some url);
   Log LvlError ("Error processing message: " ++ e) None].

(** What the 'message' listener [l] does with a frame that parses. *)
Definition forwarded `{Platform} (url : string) (inbound : Json)
    (l : Agent * Session) : list Action :=
  [Log LvlDebug "WebSocket message event received." (Some url);
   ReceiveMessage l.1 inbound l.2].

(** ** Shapes of event sequences *)

(** Events that run no code of [send]. *)
Definition quiet `{Platform} (e : Event) : bool :=
  match e with
  | EvPong _ | EvSent _ _ | EvTimer _ | EvSend _ _ => false
  | _ => true
  end.

Definition is_pong `{Platform} (r : SocketRef) (e : Event) : bool :=
  match e with EvPong r' => bool_decide (r' = r) | _ => false end.

(** No "pong" is delivered on socket [r]. *)
Definition no_pong `{Platform} (r : SocketRef) (es : list Event) : bool :=
  forallb (λ e, negb (is_pong r e)) es.

(** The event loop does not get to timer [tid]. *)
Definition no_timer `{Platform} (tid : TimerId) (es : list Event) : bool :=
  forallb (λ e, match e with
                | EvTimer t => negb (bool_decide (t = tid))
                | _ => true
                end) es.

(** Event [e] fires timer [tid], whose record is [t0], in world [w]. *)
Definition fires `{Platform} (tid : TimerId) (t0 : Timer) (e : Event)
    (w : World) : bool :=
  match e with
  | EvTimer tid' => bool_decide (tid' = tid) && bool_decide (due t0 ≤ now w)%N
  | _ => false
  end.

(** ** Invariants *)

(** [w'] differs from [w] in nothing [send] reads or writes. *)
Record session_frame `{Platform} (w w' : World) : Prop := {
  sf_calls : calls w' = calls w;
  sf_timers : timers w' = timers w;
  sf_nextTimer : nextTimer w' = nextTimer w;
  sf_writeCallbacks : writeCallbacks w' = writeCallbacks w;
  sf_pongOnce r : pongOnce (the_socket w' r) = pongOnce (the_socket w r);
  sf_sends : sends (trace w') = sends (trace w);
}.

(** What holds of the callbacks of [send] in every reachable world. *)
Record wf `{Platform} (w : World) : Prop := {
  wf_timer tid t :
    timers w !! tid = Some t →
    ∃ c, calls w !! resumes t = Some c ∧ timeoutId c = Some tid ∧
         success c = false ∧ promise c = Pending;
  wf_timeoutId k c tid :
    calls w !! k = Some c → timeoutId c = Some tid → tid < nextTimer w;
  wf_timeoutId_inj k1 k2 c1 c2 tid :
    calls w !! k1 = Some c1 → calls w !! k2 = Some c2 →
    timeoutId c1 = Some tid → timeoutId c2 = Some tid → k1 = k2;
  wf_writeCallbacks wid k :
    writeCallbacks w !! wid = Some k → k < length (calls w);
  wf_pongOnce r l :
    l ∈ pongOnce (the_socket w r) → pl_call l < length (calls w);
  wf_sends r d k : (r, d, k) ∈ sends (trace w) → k < length (calls w);
  wf_promise k c : calls w !! k = Some c → promise c ≠ Resolved;
}.

(** Call [k] has seen no completed write: it still waits on timer [tid]
    ([fired = false]) or has been rejected by it ([fired = true]). *)
Definition Waiting `{Platform} (k : CallId) (tid : TimerId) (t0 : Timer)
    (fired : bool) (w : World) : Prop :=
  ∃ c, calls w !! k = Some c ∧ success c = false ∧ timeoutId c = Some tid ∧
       resumes t0 = k ∧ (∀ wid, writeCallbacks w !! wid ≠ Some k) ∧
       if fired then timers w !! tid = None ∧ promise c = Rejected ping_error
       else timers w !! tid = Some t0 ∧ promise c = Pending.

(** The "pong" listener [l0] of call [k] is registered, once, on socket [r]. *)
Definition Subscribed `{Platform} (k : CallId) (r : SocketRef) (l0 : PongListener)
    (w : World) : Prop :=
  ∀ r', subscribed k w r' = if decide (r = r') then [l0] else [].

Definition Unsubscribed `{Platform} (k : CallId) (w : World) : Prop :=
  ∀ r', subscribed k w r' = [].

(** [w'] differs from [w] in nothing the 'connection' listener writes. *)
Record listener_frame `{Platform} (w w' : World) : Prop := {
  lf_socketIds : socketIds w' = socketIds w;
  lf_closeListeners r :
    closeListeners (the_socket w' r) = closeListeners (the_socket w r);
}.

(** The sessions with a 'close' listener are recorded in [socketIds], and no
    two of them on one socket have the same id. *)
Record listener_wf `{Platform} (w : World) : Prop := {
  lwf_registered r l :
    l ∈ closeListeners (the_socket w r) →
    socketIds w !! session_id l.2 = Some r;
  lwf_NoDup r :
    NoDup ((λ l : Agent * Session, session_id l.2) <$>
             closeListeners (the_socket w r));
}.

(** ** Concrete inputs *)

(** A platform whose messages are strings, serialized between braces. *)
Definition demo : Platform :=
  {| EncryptedMessage := string;
     Json := string;
     JSON_stringify := λ m, ("{" ++ m ++ "}")%string;
     JSON_parse := λ s,
       if String.prefix "{" s then inl s
       else inr "SyntaxError: Unexpected token";
     uuid := λ n, String (Ascii.ascii_of_nat (97 + n)) "" |}.

Definition session0 : Session := {| session_id := "a"; session_socket := 0 |}.

Definition agent0 : Agent :=
  {| agent_ref := 0; endpoints := ["http://localhost:3001"; "ws://localhost:3001"] |}.

(** Socket 0 is open, [send] is called on it and the peer answers the ping. *)
Definition acked_send `{Platform} (msg : EncryptedMessage) : list Event :=
  [EvReadyState 0 OPEN; EvSend session0 msg; EvPong 0].

(** Socket 0 is open, [send] is called on it, 10 s pass without a pong and
    the timer of [delay] fires. *)
Definition timed_out_send `{Platform} (msg : EncryptedMessage) : list Event :=
  [EvReadyState 0 OPEN; EvSend session0 msg; EvTick 10000; EvTimer 0].

(** The transport is started and accepts socket 0. *)
Definition accepted : list (@Event demo) :=
  [EvReadyState 0 OPEN; EvStart agent0; EvConnection 0].


(** ** Further observations and invariants *)

(** The [socket.close()] calls of a trace. *)
Definition closes `{Platform} (tr : list Action) : list nat :=
  omap (λ a, match a with SocketClose r => Some r | _ => None end) tr.

(** The [removeSession] calls of a trace. *)
Definition removals `{Platform} (tr : list Action) : list (Agent * Session) :=
  omap (λ a, match a with RemoveSession a s => Some (a, s) | _ => None end) tr.

(** The [receiveMessage] calls of a trace. *)
Definition inbound `{Platform} (tr : list Action) : list (Agent * Json * Session) :=
  omap (λ a, match a with
             | ReceiveMessage a j s => Some (a, j, s)
             | _ => None
             end) tr.

(** The [socket.ping] calls of a trace. *)
Definition pings `{Platform} (tr : list Action) : list (nat * string) :=
  omap (λ a, match a with SocketPing r d => Some (r, d) | _ => None end) tr.

(** Events in which the only code that runs is code of [send]. *)
Definition send_path `{Platform} (e : Event) : bool :=
  match e with
  | EvSend _ _ | EvPong _ | EvSent _ _ | EvTimer _ | EvTick _ => true
  | _ => false
  end.

(** What holds of the calls of [send] in every reachable world, beside [wf]:
    a call that still waits has its timer; a rejected call was rejected
    either at once, as closed, or by its timer; a timer is due within the
    bound; a write whose outcome is awaited, or has been reported as a
    success, was handed to the socket; and a call rejected as closed has left
    nothing behind. *)
Record calls_wf `{Platform} (w : World) : Prop := {
  cw_waiting k c :
    calls w !! k = Some c → promise c = Pending → success c = false →
    ∃ tid t, timeoutId c = Some tid ∧ timers w !! tid = Some t ∧ resumes t = k;
  cw_rejected k c e :
    calls w !! k = Some c → promise c = Rejected e →
    (e = closed_error ∧ timeoutId c = None) ∨
    (e = ping_error ∧ is_Some (timeoutId c));
  cw_due tid t : timers w !! tid = Some t → (due t ≤ now w + delay_ms)%N;
  cw_written wid k : writeCallbacks w !! wid = Some k → sends_of k w ≠ [];
  cw_success k c :
    calls w !! k = Some c → success c = true →
    sends_of k w ≠ [] ∧ is_Some (timeoutId c);
  cw_unprobed k c :
    calls w !! k = Some c → timeoutId c = None →
    promise c = Rejected closed_error ∧ success c = false ∧
    sends_of k w = [] ∧ ∀ r, subscribed k w r = [];
}.

(** [w'] differs from [w] in nothing that concerns the connections: the state
    of the sockets, the listeners of the transport, its map of ids, and the
    calls made to close a socket or to remove a session. *)
Record connection_frame `{Platform} (w w' : World) : Prop := {
  cf_readyState r : readyState (the_socket w' r) = readyState (the_socket w r);
  cf_messageListeners r :
    messageListeners (the_socket w' r) = messageListeners (the_socket w r);
  cf_closeListeners r :
    closeListeners (the_socket w' r) = closeListeners (the_socket w r);
  cf_socketIds : socketIds w' = socketIds w;
  cf_connectionListeners : connectionListeners w' = connectionListeners w;
  cf_closes : closes (trace w') = closes (trace w);
  cf_removals : removals (trace w') = removals (trace w);
}.

(** The sessions of the transport are those of their socket, and each has
    both its 'message' and its 'close' listener. *)
Record sessions_wf `{Platform} (w : World) : Prop := {
  sw_socket r l :
    l ∈ closeListeners (the_socket w r) → session_socket l.2 = r;
  sw_listeners r :
    messageListeners (the_socket w r) = closeListeners (the_socket w r);
}.

(** The ids the next [k] calls of [utils.uuid()] return, after [n] calls. *)
Definition next_uuids `{Platform} (n k : nat) : list string :=
  (λ i, uuid (n + i)) <$> seq 0 k.

(** The sessions that the 'connection' listeners of the agents [agents]
    create for socket [r] when the ids they draw are [ids]. *)
Definition new_sessions (r : SocketRef) (agents : list Agent) (ids : list string) :
    list (Agent * Session) :=
  zip_with (λ a i, (a, {| session_id := i; session_socket := r |})) agents ids.

(** The frames of a list that [JSON.parse] accepts, parsed. *)
Definition parsed `{Platform} (frames : list (string * string)) : list Json :=
  omap (λ f, match JSON_parse f.1 with inl j => Some j | inr _ => None end) frames.

(** The 'message' events of a list of frames (data and url) on socket [r]. *)
Definition messages `{Platform} (r : SocketRef) (frames : list (string * string)) :
    list Event :=
  (λ f, EvMessage r f.1 f.2) <$> frames.

(** ** WsInboundTransport.stop *)

(** Why the promise of [stop()] is rejected: [this.logger] is not set before
    [start] has run, so that [this.logger.debug] throws a TypeError; or the
    server passes an error to the callback of [socketServer.close]. *)
Inductive StopError := LoggerUnset | ServerError (error : string).

Inductive StopState := StopPending | StopResolved | StopRejected (e : StopError).

(** The transport with its server: the world of its sockets, the number of
    calls of [socketServer.close], and the promise of every call of [stop],
    the [k]-th call owning the callback of the [k]-th promise. *)
Record Transport `{Platform} := mkTransport {
  world : World;
  serverCloses : nat;
  stops : list StopState;
}.

Definition transport_init `{Platform} : Transport :=
  {| world := init; serverCloses := 0; stops := [] |}.

Module WsInboundTransportStop.

(** [stop()], up to the return of the promise.  [this.logger] is assigned by
    [start], which also registers the 'connection' listener. *)
Definition stop `{Platform} (t : Transport) : Transport * nat :=
  let k := length (stops t) in
  match connectionListeners (world t) with
  | [] =>
      (mkTransport _ (world t) (serverCloses t)
         (stops t ++ [StopRejected LoggerUnset]), k)
  | _ :: _ =>
      (mkTransport _
         (emit (Log LvlDebug "Closing WebSocket Server" None) (world t))
         (S (serverCloses t))
         (stops t ++ [StopPending]), k)
  end.

(** The callback of [socketServer.close]: [if (error) reject(error)] and then
    [resolve()], which does nothing to a promise that is settled. *)
Definition on_server_closed `{Platform} (k : nat) (error : option string)
    (t : Transport) : Transport :=
  match stops t !! k with
  | Some StopPending =>
      mkTransport _ (world t) (serverCloses t)
        (<[k := match error with
                | Some e => StopRejected (ServerError e)
                | None => StopResolved
                end]> (stops t))
  | _ => t
  end.

End WsInboundTransportStop.

(** What happens to the transport: an event of its world, a call of [stop],
    or the server calling back. *)
Inductive TransportEvent `{Platform} :=
| TeWorld (e : Event)
| TeStop
| TeServerClosed (k : nat) (error : option string).

Definition transport_step `{Platform} (e : TransportEvent) (t : Transport) :
    Transport :=
  match e with
  | TeWorld e => mkTransport _ (step e (world t)) (serverCloses t) (stops t)
  | TeStop => (WsInboundTransportStop.stop t).1
  | TeServerClosed k error => WsInboundTransportStop.on_server_closed k error t
  end.

Definition transport_run `{Platform} (es : list TransportEvent) (t : Transport) :
    Transport :=
  foldl (λ t e, transport_step e t) t es.

(** The transport is never started. *)
Definition never_started `{Platform} (es : list TransportEvent) : bool :=
  forallb (λ e, match e with TeWorld (EvStart _) => false | _ => true end) es.

(** A platform like [demo] whose [uuid] returns the same value at every
    call. *)
Definition colliding : Platform :=
  {| EncryptedMessage := string;
     Json := string;
     JSON_stringify := λ m, ("{" ++ m ++ "}")%string;
     JSON_parse := λ s,
       if String.prefix "{" s then inl s
       else inr "SyntaxError: Unexpected token";
     uuid := λ _, "a" |}.

(** ** The mediator sample: settings read from the environment *)

Module Mediator.

(** [v || d] for a variable of [process.env]: the variable if it is set and
    not the empty string, [d] otherwise. *)
Definition or_else (v : option string) (d : string) : string :=
  match v with
  | Some s => if bool_decide (s = "") then d else s
  | None => d
  end.

(** The character [','], code 44. *)
Definition comma : Ascii.ascii :=
  Ascii.Ascii false false true true false true false false.

(** [s.split(',')] *)
Fixpoint split_comma (s : string) : list string :=
  match s with
  | EmptyString => [EmptyString]
  | String c s' =>
      if Ascii.eqb c comma then EmptyString :: split_comma s'
      else match split_comma s' with
           | h :: t => String c h :: t
           | [] => [String c EmptyString]
           end
  end.

Fixpoint has_comma (s : string) : bool :=
  match s with
  | EmptyString => false
  | String c s' => Ascii.eqb c comma || has_comma s'
  end.

Section settings.

(** [`${Number(s)}`]: the text of the number a string converts to. *)
Variable Number_text : string → string.

Variable env : gmap string string.

(** [process.env.AGENT_PORT ? Number(process.env.AGENT_PORT) : 3001], as it
    is printed in a template string. *)
Definition port : string :=
  match env !! "AGENT_PORT" with
  | Some s => if bool_decide (s = "") then "3001" else Number_text s
  | None => "3001"
  end.

Definition endpoints : list string :=
  match env !! "AGENT_ENDPOINTS" with
  | Some s => split_comma s
  | None => [("http://localhost:" ++ port)%string; ("ws://localhost:" ++ port)%string]
  end.

Definition db_host : string := or_else (env !! "POSTGRESQL_HOST") "localhost".

Definition db_port : string :=
  match env !! "POSTGRESQL_PORT" with
  | Some s => if bool_decide (s = "") then "5432" else Number_text s
  | None => "5432"
  end.

(** [postgresStorageConfig.config.url] *)
Definition url : string := (db_host ++ ":" ++ db_port)%string.

Definition account : string := or_else (env !! "POSTGRESQL_USER") "postgres".

Definition password : string := or_else (env !! "POSTGRESQL_PASSWORD") "postgres".

Definition walletName : string :=
  match env !! "POSTGRESQL_DBNAME" with
  | Some s =>
      if bool_decide (s = "") then
        or_else (env !! "WALLET_NAME") "pocket-mediator-pgdb"
      else (s ++ "-wallet")%string
  | None => or_else (env !! "WALLET_NAME") "pocket-mediator-pgdb"
  end.

Definition label : string :=
  or_else (env !! "AGENT_LABEL") "Aries Framework JavaScript Mediator".

Definition walletKey : string :=
  or_else (env !! "WALLET_KEY") "AriesFrameworkJavaScript".

(** The settings read with [||] or [? :], which take an empty variable for
    one that is not set. *)
Definition scalar_settings : list string :=
  [port; db_host; db_port; url; account; password; walletName; label; walletKey].

End settings.

(** [httpEndpoint + '/invitation'] of the '/invitation' route, where
    [httpEndpoint] is [config.endpoints.find((e) => e.startsWith('http'))],
    which is [undefined] when no endpoint starts with 'http'. *)
Definition invitation_domain (config_endpoints : list string) : string :=
  match List.find (String.prefix "http") config_endpoints with
  | Some e => (e ++ "/invitation")%string
  | None => "undefined/invitation"
  end.

End Mediator.

(** ** The logger of the mediator sample *)

Module MediatorLogger.

(** [LogLevel] of @aries-framework/core, in the order its members are
    listed. *)
Module LogLevel.
Inductive t := test | trace | debug | info | warn | error | fatal | off.
End LogLevel.

#[global] Instance LogLevel_eq_dec : EqDecision LogLevel.t.
Proof. solve_decision. Defined.

(** The tab character, code 9. *)
Definition tab : string :=
  String (Ascii.Ascii true false false true false false false false) "".

Definition LOG_TEMPLATE : string :=
  ("{{rawIsoStr}}" ++ tab ++ "{{logLevelName}}" ++ tab)%string.

(** *** tslog, as far as the class uses it

    A logger is its settings; a setting that was not given, or was given as
    [undefined], is [None].  [getSubLogger] spreads the settings it is given
    over the parent's, so [name] and [minLevel], which the class always
    passes, replace the parent's.  A logging method drops the call when its
    level id is below [minLevel] (0 when it is not set) and writes a record
    otherwise. *)
Record TsLogger := mkTsLogger {
  name : option string;
  minLevel : option nat;
  prettyLogTemplate : option string;
  stylePrettyLogs : option bool;
}.

Definition getSubLogger (parent : TsLogger) (name : option string)
    (minLevel : option nat) : TsLogger :=
  mkTsLogger name minLevel (prettyLogTemplate parent) (stylePrettyLogs parent).

(** The level id of the logging method of that name; [None] when the logger
    has no such method. *)
Definition method_id (method : string) : option nat :=
  if bool_decide (method = "silly") then Some 0
  else if bool_decide (method = "trace") then Some 1
  else if bool_decide (method = "debug") then Some 2
  else if bool_decide (method = "info") then Some 3
  else if bool_decide (method = "warn") then Some 4
  else if bool_decide (method = "error") then Some 5
  else if bool_decide (method = "fatal") then Some 6
  else None.

Section logger.

(** The type of the [data] of a log call, and
    [JSON.parse(JSON.stringify(data, replaceError, 2))]: the copy, or the
    text of the error that [JSON.stringify] throws. *)
Variable Data : Type.
Variable copy : Data → Data + string.

Record LogRecord := mkLogRecord {
  record_method : string;
  record_logger : option string;
  record_message : string;
  record_data : option Data;
}.

(** What a call does: it returns, having written a record or not, or it
    throws. *)
Inductive Outcome := Returned (written : option LogRecord) | Threw (e : string).

(** [logger[method](message, data)] *)
Definition call (logger : TsLogger) (method : option string) (message : string)
    (data : option Data) : Outcome :=
  match method with
  | None => Threw "TypeError"
  | Some method =>
      match method_id method with
      | None => Threw "TypeError"
      | Some id =>
          if id <? default 0 (minLevel logger) then Returned None
          else Returned (Some (mkLogRecord method (name logger) message data))
      end
  end.

(** *** The class *)

Definition tsLogLevelStringMap (level : LogLevel.t) : option string :=
  match level with
  | LogLevel.test => Some "silly"
  | LogLevel.trace => Some "trace"
  | LogLevel.debug => Some "debug"
  | LogLevel.info => Some "info"
  | LogLevel.warn => Some "warn"
  | LogLevel.error => Some "error"
  | LogLevel.fatal => Some "fatal"
  | LogLevel.off => None
  end.

Definition tsLogLevelNumberMap (level : LogLevel.t) : option nat :=
  match level with
  | LogLevel.test => Some 0
  | LogLevel.trace => Some 1
  | LogLevel.debug => Some 2
  | LogLevel.info => Some 3
  | LogLevel.warn => Some 4
  | LogLevel.error => Some 5
  | LogLevel.fatal => Some 6
  | LogLevel.off => None
  end.

Record MediatorLogger := mkMediatorLogger {
  logLevel : LogLevel.t;
  logger : TsLogger;
}.

Definition constructor (logLevel : LogLevel.t) (name : option string)
    (logger : option TsLogger) : MediatorLogger :=
  let minLevel :=
    if bool_decide (logLevel = LogLevel.off) then None
    else tsLogLevelNumberMap logLevel in
  match logger with
  | Some logger => mkMediatorLogger logLevel (getSubLogger logger name minLevel)
  | None =>
      mkMediatorLogger logLevel
        (mkTsLogger name minLevel (Some LOG_TEMPLATE) (Some false))
  end.

Definition fromLogger (logger0 : MediatorLogger) (name : option string) : MediatorLogger :=
  constructor (logLevel logger0) name (Some (logger logger0)).

Definition log (this : MediatorLogger) (level : LogLevel.t) (message : string)
    (data : option Data) : Outcome :=
  let tsLogLevel := tsLogLevelStringMap level in
  if bool_decide (logLevel this = LogLevel.off) then Returned None
  else
    match data with
    | Some d =>
        match copy d with
        | inl d' => call (logger this) tsLogLevel message (Some d')
        | inr e => Threw e
        end
    | None => call (logger this) tsLogLevel message None
    end.

Definition test this message data := log this LogLevel.test message data.
Definition trace this message data := log this LogLevel.trace message data.
Definition debug this message data := log this LogLevel.debug message data.
Definition info this message data := log this LogLevel.info message data.
Definition warn this message data := log this LogLevel.warn message data.
Definition error this message data := log this LogLevel.error message data.
Definition fatal this message data := log this LogLevel.fatal message data.

(** The seven logging methods, from the lowest level to the highest. *)
Definition methods : list (MediatorLogger → string → option Data → Outcome) :=
  [test; trace; debug; info; warn; error; fatal].

(** [written o] when the call wrote a record. *)
Definition written (o : Outcome) : bool :=
  match o with
  | Returned (Some _) => true
  | _ => false
  end.

End logger.

End MediatorLogger.
(** * Proofs *)

Lemma dispatch_ind `{Platform} {A} (P : World → Prop) (h : A → World → World) ls w :
  (∀ l w, P w → P (h l w)) → P w → P (dispatch h ls w).
Proof.
  intros Hh. unfold dispatch. revert w.
  induction ls as [|l ls IH]; intros w Hw; simpl; [done|].
  apply IH, Hh, Hw.
Qed.

Lemma run_app `{Platform} es1 es2 w : run (es1 ++ es2) w = run es2 (run es1 w).
Proof. apply foldl_app. Qed.

Lemma run_cons `{Platform} e es w : run (e :: es) w = run es (step e w).
Proof. done. Qed.

Lemma run_snoc `{Platform} es e w : run (es ++ [e]) w = step e (run es w).
Proof. by rewrite run_app. Qed.

Lemma on_connection_socketIds `{Platform} r a w :
  socketIds w ⊆ socketIds (on_connection r a w).
Proof.
  unfold on_connection, next_uuid. simpl.
  destruct (has_socketId _ _) eqn:E; simpl; [done|].
  unfold has_socketId in E. simpl in E.
  apply orb_false_iff in E as [E _]. apply bool_decide_eq_false in E.
  apply insert_subseteq. by apply eq_None_not_Some.
Qed.

Lemma step_socketIds `{Platform} e w : socketIds w ⊆ socketIds (step e w).
Proof.
  destruct e; simpl; try done.
  - apply (dispatch_ind (λ w', socketIds w ⊆ socketIds w')); [|done].
    intros a w' Hw'. etrans; [exact Hw'|]. apply on_connection_socketIds.
  - apply (dispatch_ind (λ w', socketIds w ⊆ socketIds w')); [|done].
    intros a w' Hw'. etrans; [exact Hw'|]. unfold on_message. destruct (JSON_parse _); done.
  - case_decide; [|done]. destruct error; done.
  - apply (dispatch_ind (λ w', socketIds w ⊆ socketIds w')); [|done].
    intros a w' Hw'. done.
  - apply (dispatch_ind (λ w', socketIds w ⊆ socketIds w')); [|done].
    intros a w' Hw'. done.
  - destruct (writeCallbacks w !! wid); [|done]. destruct error; simpl; [done|].
    unfold clearTimeout. by destruct (_ ≫= _).
  - destruct (timers w !! tid); [|done]. case_decide; [|done].
    unfold resume. simpl. destruct (_ !! _); [|done]. by destruct (success _).
  - unfold send. case_decide; done.
  - unfold close. case_decide; done.
Qed.

Lemma sends_app `{Platform} tr1 tr2 : sends (tr1 ++ tr2) = sends tr1 ++ sends tr2.
Proof. apply omap_app. Qed.

Lemma the_socket_upd `{Platform} r f w r' :
  the_socket (upd_socket r f w) r' =
  if decide (r = r') then f (the_socket w r) else the_socket w r'.
Proof.
  unfold the_socket, upd_socket. simpl. rewrite lookup_insert.
  by case_decide.
Qed.

Lemma session_frame_refl `{Platform} w : session_frame w w.
Proof. by split. Qed.

Lemma session_frame_trans `{Platform} w1 w2 w3 :
  session_frame w1 w2 → session_frame w2 w3 → session_frame w1 w3.
Proof.
  intros [] []. split; intros; etrans; eauto.
Qed.

Lemma frame_emit `{Platform} a w :
  (∀ r d k, a ≠ SocketSend r d k) → session_frame w (emit a w).
Proof.
  intros Ha. split; try done. simpl. rewrite sends_app. simpl.
  destruct a; try by rewrite ?app_nil_r. by destruct (Ha socket data cb).
Qed.

Lemma frame_upd_socket `{Platform} r f w :
  (∀ s, pongOnce (f s) = pongOnce s) → session_frame w (upd_socket r f w).
Proof.
  intros Hf. split; try done. intros r'. rewrite the_socket_upd.
  case_decide; subst; auto.
Qed.

Ltac frame_tac :=
  split; simpl; intros; rewrite ?sends_app; simpl; rewrite ?app_nil_r; done.

Lemma quiet_frame `{Platform} e w : quiet e → session_frame w (step e w).
Proof.
  destruct e; try (intros []; fail); intros _; simpl.
  - unfold start. frame_tac.
  - apply (dispatch_ind (session_frame w)); [|apply session_frame_refl].
    intros a w' Hw'. eapply session_frame_trans; [exact Hw'|].
    unfold on_connection, next_uuid, listenOnWebSocketMessages. simpl.
    destruct (has_socketId _ _); [frame_tac|].
    do 2 (eapply session_frame_trans; [|by apply frame_upd_socket]).
    frame_tac.
  - by apply frame_upd_socket.
  - apply (dispatch_ind (session_frame w)); [|apply session_frame_refl].
    intros a w' Hw'. eapply session_frame_trans; [exact Hw'|].
    unfold on_message. destruct (JSON_parse _); frame_tac.
  - case_decide; [|apply session_frame_refl]. destruct error; frame_tac.
  - apply (dispatch_ind (session_frame w)).
    + intros a w' Hw'. eapply session_frame_trans; [exact Hw'|]. frame_tac.
    + by apply frame_upd_socket.
  - frame_tac.
  - unfold close, socket_close. case_decide; [|apply session_frame_refl]. simpl.
    eapply session_frame_trans; [|by apply frame_emit]. by apply frame_upd_socket.
Qed.

Lemma wf_init `{Platform} : wf init.
Proof.
  split; simpl; intros *; try (rewrite lookup_empty; done); try done.
  - unfold the_socket. simpl. rewrite lookup_empty. simpl. by intros ?%elem_of_nil.
  - by intros ?%elem_of_nil.
Qed.

Lemma wf_frame `{Platform} w w' : session_frame w w' → wf w → wf w'.
Proof.
  intros [Hc Ht Hn Hw Hp Hs] [].
  split; rewrite ?Hc, ?Ht, ?Hn, ?Hw, ?Hs; try done.
  intros r l. rewrite Hp. eauto.
Qed.

Lemma dispatch_on_pong `{Platform} ls w :
  let w' := dispatch on_pong ls w in
  calls w' = calls w ∧ timers w' = timers w ∧ nextTimer w' = nextTimer w ∧
  sockets w' = sockets w ∧
  sends (trace w') = sends (trace w) ++ map pong_send ls ∧
  (∀ wid k, writeCallbacks w' !! wid = Some k →
     writeCallbacks w !! wid = Some k ∨ ∃ l, l ∈ ls ∧ pl_call l = k).
Proof.
  revert w. induction ls as [|l ls IH]; intros w; simpl.
  { rewrite app_nil_r. naive_solver. }
  destruct (IH (on_pong l w)) as (Hc & Ht & Hn & Hs & Htr & Hw).
  unfold dispatch in *. simpl in *.
  rewrite Hc, Ht, Hn, Hs, Htr. repeat split.
  - rewrite sends_app. simpl. by rewrite <- app_assoc.
  - intros wid k Hk. destruct (Hw wid k Hk) as [Hk'|(l' & Hl' & <-)].
    + apply lookup_insert_Some in Hk' as [[_ <-]|[_ Hk']]; [|by left].
      right. exists l. split; [left|done].
    + right. exists l'. split; [by right|done].
Qed.

Lemma step_pong_spec `{Platform} r w :
  let w' := step (EvPong r) w in
  calls w' = calls w ∧ timers w' = timers w ∧ nextTimer w' = nextTimer w ∧
  (∀ r', pongOnce (the_socket w' r') =
         if decide (r = r') then [] else pongOnce (the_socket w r')) ∧
  sends (trace w') =
    sends (trace w) ++ map pong_send (pongOnce (the_socket w r)) ∧
  (∀ wid k, writeCallbacks w' !! wid = Some k →
     writeCallbacks w !! wid = Some k ∨
     ∃ l, l ∈ pongOnce (the_socket w r) ∧ pl_call l = k).
Proof.
  simpl.
  destruct (dispatch_on_pong (pongOnce (the_socket w r))
    (upd_socket r (set_pongOnce []) w)) as (Hc & Ht & Hn & Hs & Htr & Hw).
  repeat split; try done.
  intros r'. unfold the_socket at 1. rewrite Hs.
  change (default new_socket (sockets (upd_socket r (set_pongOnce []) w) !! r'))
    with (the_socket (upd_socket r (set_pongOnce []) w) r').
  rewrite the_socket_upd. by case_decide.
Qed.

Lemma wf_step_pong `{Platform} r w : wf w → wf (step (EvPong r) w).
Proof.
  intros Hwf.
  destruct (step_pong_spec r w) as (Hc & Ht & Hn & Hs & Htr & Hw).
  destruct Hwf.
  split; rewrite ?Hc, ?Ht, ?Hn; try done.
  - intros wid k Hk. destruct (Hw wid k Hk) as [Hk'|(l' & Hl' & <-)]; eauto.
  - intros r' l. rewrite Hs. case_decide; simpl; [by intros ?%elem_of_nil|eauto].
  - intros r' d k. rewrite Htr. intros [?|Hin]%elem_of_app; [eauto|].
    apply list_elem_of_fmap in Hin as (l & [= -> -> ->] & Hl). eauto.
Qed.

Lemma alter_snoc {A} (f : A → A) (l : list A) (x : A) :
  alter f (length l) (l ++ [x]) = l ++ [f x].
Proof.
  replace (length l) with (length l + 0) at 1 by lia.
  by rewrite alter_app_r.
Qed.

Lemma lookup_alter_call (f : SendCall → SendCall) k k' (cs : list SendCall) c' :
  alter f k cs !! k' = Some c' →
  ∃ c, cs !! k' = Some c ∧ ((k' = k ∧ c' = f c) ∨ (k' ≠ k ∧ c' = c)).
Proof.
  rewrite list_lookup_alter. case_decide as E.
  - subst. destruct (cs !! k') as [c|]; simpl; [|done].
    intros [= <-]. eauto.
  - intros ->. eauto.
Qed.

Lemma step_sent_None `{Platform} wid error w :
  writeCallbacks w !! wid = None → step (EvSent wid error) w = w.
Proof. simpl. by intros ->. Qed.

Lemma wf_step_sent `{Platform} wid error w : wf w → wf (step (EvSent wid error) w).
Proof.
  intros Hwf. simpl. destruct (writeCallbacks w !! wid) as [k|] eqn:Ek; [|done].
  destruct Hwf. destruct error as [e|]; simpl.
  - split; simpl; eauto.
    + intros wid' k' [_ ?]%lookup_delete_Some. eauto.
    + intros r d k'. rewrite !sends_app. simpl. rewrite !app_nil_r. eauto.
  - assert (Hsub : ∀ tid t,
      timers (clearTimeout (alter (set_success true) k (calls w) !! k ≫= timeoutId)
        (upd_call k (set_success true)
          (emit (Log LvlDebug (session_type ++ " sent message successfully.") None)
            (set_writeCallbacks (delete wid (writeCallbacks w)) w)))) !! tid = Some t →
      timers w !! tid = Some t ∧ calls w !! k ≫= timeoutId ≠ Some tid).
    { intros tid t. rewrite list_lookup_alter_eq.
      destruct (calls w !! k) as [c|]; simpl; [|done].
      destruct (timeoutId c) as [tid'|]; simpl; [|done].
      intros [? ?]%lookup_delete_Some. split; congruence. }
    unfold on_sent. split; unfold clearTimeout.
    + intros tid t Ht. apply Hsub in Ht as [Ht Hne].
      destruct (wf_timer0 _ _ Ht) as (c & Hc & Hid & Hs & Hp).
      assert (resumes t ≠ k) as Hk.
      { intros <-. rewrite Hc in Hne. simpl in Hne. congruence. }
      exists c. split; [|done].
      destruct (_ ≫= _); simpl; by rewrite list_lookup_alter_ne.
    + intros k' c' tid Hc'.
      assert (∃ c, calls w !! k' = Some c ∧ timeoutId c' = timeoutId c) as (c & Hc & ->).
      { destruct (_ ≫= _); simpl in Hc';
          apply lookup_alter_call in Hc' as (c & ? & [[_ ->]|[_ ->]]); eauto. }
      destruct (_ ≫= _); simpl; eauto.
    + intros k1 k2 c1 c2 tid H1 H2.
      assert (∃ c, calls w !! k1 = Some c ∧ timeoutId c1 = timeoutId c) as (c1' & Hc1 & ->).
      { destruct (_ ≫= _); simpl in H1;
          apply lookup_alter_call in H1 as (c & ? & [[_ ->]|[_ ->]]); eauto. }
      assert (∃ c, calls w !! k2 = Some c ∧ timeoutId c2 = timeoutId c) as (c2' & Hc2 & ->).
      { destruct (_ ≫= _); simpl in H2;
          apply lookup_alter_call in H2 as (c & ? & [[_ ->]|[_ ->]]); eauto. }
      eauto.
    + intros wid' k'. destruct (_ ≫= _); simpl; rewrite length_alter;
        intros [_ ?]%lookup_delete_Some; eauto.
    + intros r l. destruct (_ ≫= _); simpl; rewrite length_alter; apply wf_pongOnce0.
    + intros r d k'. destruct (_ ≫= _); simpl; rewrite length_alter, sends_app;
        simpl; rewrite app_nil_r; eauto.
    + intros k' c' Hc'.
      assert (∃ c, calls w !! k' = Some c ∧ promise c' = promise c) as (c & Hc & ->).
      { destruct (_ ≫= _); simpl in Hc';
          apply lookup_alter_call in Hc' as (c & ? & [[_ ->]|[_ ->]]); eauto. }
      eauto.
Qed.

Lemma wf_step_timer `{Platform} tid w : wf w → wf (step (EvTimer tid) w).
Proof.
  intros Hwf. simpl. destruct (timers w !! tid) as [t|] eqn:Et; [|done].
  case_decide as Hdue; [|done].
  destruct (wf_timer _ Hwf _ _ Et) as (c & Hc & Hid & Hs & Hp).
  unfold resume. simpl. rewrite Hc, Hs.
  split; simpl.
  - intros tid' t' [Hne Ht']%lookup_delete_Some.
    destruct (wf_timer _ Hwf _ _ Ht') as (c' & Hc' & Hid' & Hs' & Hp').
    exists c'. split; [|done]. rewrite list_lookup_alter_ne; [done|].
    intros E. rewrite E in Hc. congruence.
  - intros k' c' tid' Hc'.
    apply lookup_alter_call in Hc' as (c0 & ? & [[_ ->]|[_ ->]]);
      simpl; by eapply wf_timeoutId.
  - intros k1 k2 c1 c2 tid' H1 H2.
    apply lookup_alter_call in H1 as (c1' & ? & [[_ ->]|[_ ->]]);
    apply lookup_alter_call in H2 as (c2' & ? & [[_ ->]|[_ ->]]);
      simpl; by eapply wf_timeoutId_inj.
  - intros wid k. rewrite length_alter. by eapply wf_writeCallbacks.
  - intros r l. rewrite length_alter. apply (wf_pongOnce _ Hwf r l).
  - intros r d k. rewrite length_alter, sends_app. simpl. rewrite app_nil_r.
    by eapply wf_sends.
  - intros k' c' Hc'.
    apply lookup_alter_call in Hc' as (c0 & ? & [[_ ->]|[_ ->]]);
      simpl; [done|by eapply wf_promise].
Qed.

Lemma wf_step_send `{Platform} this msg w : wf w → wf (step (EvSend this msg) w).
Proof.
  intros Hwf. simpl. unfold send. case_decide as Hopen; simpl.
  - unfold upd_call. simpl. rewrite alter_snoc. simpl.
    split; simpl.
    + intros tid t [[<- <-]|[Hne Ht]]%lookup_insert_Some; simpl.
      * rewrite list_lookup_middle by done. eauto.
      * destruct (wf_timer _ Hwf _ _ Ht) as (c & Hc & ?).
        exists c. split; [|done]. by apply lookup_app_l_Some.
    + intros k c tid [[_ Hk]|[-> <-]]%lookup_snoc_Some; simpl.
      * intros ?. assert (tid < nextTimer w) by (eapply wf_timeoutId; eauto). lia.
      * intros [= <-]. lia.
    + intros k1 k2 c1 c2 tid.
      intros [[_ H1]|[-> <-]]%lookup_snoc_Some [[_ H2]|[-> <-]]%lookup_snoc_Some; simpl.
      * by eapply wf_timeoutId_inj.
      * intros Hid [= <-]. pose proof (wf_timeoutId _ Hwf _ _ _ H1 Hid). lia.
      * intros [= <-] Hid. pose proof (wf_timeoutId _ Hwf _ _ _ H2 Hid). lia.
      * done.
    + intros wid k Hk. rewrite length_app. simpl.
      pose proof (wf_writeCallbacks _ Hwf _ _ Hk). lia.
    + intros r l. rewrite length_app. simpl. unfold the_socket. simpl.
      rewrite lookup_insert. case_decide; simpl.
      * intros [Hl| ->%list_elem_of_singleton]%elem_of_app; simpl; [|lia].
        pose proof (wf_pongOnce _ Hwf _ _ Hl). lia.
      * intros Hl. pose proof (wf_pongOnce _ Hwf r l Hl). lia.
    + intros r d k. rewrite length_app, sends_app. simpl. rewrite app_nil_r.
      intros Hk. pose proof (wf_sends _ Hwf _ _ _ Hk). lia.
    + intros k c [[_ Hk]|[_ <-]]%lookup_snoc_Some; simpl; [|done].
      by eapply wf_promise.
  - split; simpl.
    + intros tid t Ht. destruct (wf_timer _ Hwf _ _ Ht) as (c & Hc & ?).
      exists c. split; [|done]. by apply lookup_app_l_Some.
    + intros k c tid [[_ Hk]|[_ <-]]%lookup_snoc_Some; simpl; [|done].
      by eapply wf_timeoutId.
    + intros k1 k2 c1 c2 tid.
      intros [[_ H1]|[-> <-]]%lookup_snoc_Some [[_ H2]|[-> <-]]%lookup_snoc_Some;
        simpl; try done.
      by eapply wf_timeoutId_inj.
    + intros wid k Hk. rewrite length_app. simpl.
      pose proof (wf_writeCallbacks _ Hwf _ _ Hk). lia.
    + intros r l Hl. rewrite length_app. simpl.
      pose proof (wf_pongOnce _ Hwf r l Hl). lia.
    + intros r d k Hk. rewrite length_app. simpl.
      pose proof (wf_sends _ Hwf _ _ _ Hk). lia.
    + intros k c [[_ Hk]|[_ <-]]%lookup_snoc_Some; simpl; [|done].
      by eapply wf_promise.
Qed.

Lemma wf_step `{Platform} e w : wf w → wf (step e w).
Proof.
  intros Hwf. destruct (quiet e) eqn:Hq.
  - eapply wf_frame; [|done]. apply quiet_frame. by rewrite Hq.
  - destruct e; try done.
    + by apply wf_step_pong.
    + by apply wf_step_sent.
    + by apply wf_step_timer.
    + by apply wf_step_send.
Qed.

Lemma wf_run `{Platform} es w : wf w → wf (run es w).
Proof.
  revert w. induction es as [|e es IH]; intros w Hw; [done|].
  apply IH, wf_step, Hw.
Qed.

Lemma filter_pong_send `{Platform} k ls :
  filter (λ x, x.2 = k) (map pong_send ls) =
  map pong_send (filter (λ l, pl_call l = k) ls).
Proof.
  induction ls as [|l ls IH]; [done|]. simpl.
  rewrite !filter_cons. simpl. rewrite IH. by case_decide.
Qed.

Lemma sends_quiet_call `{Platform} e w :
  (∀ r, e ≠ EvPong r) → sends (trace (step e w)) = sends (trace w).
Proof.
  intros Hne. destruct (quiet e) eqn:Hq.
  { apply quiet_frame. by rewrite Hq. }
  destruct e; try done; simpl.
  - by destruct (Hne socket).
  - destruct (writeCallbacks w !! wid); [|done].
    destruct error; simpl.
    + rewrite !sends_app. simpl. by rewrite !app_nil_r.
    + unfold clearTimeout. destruct (_ ≫= _); simpl;
        rewrite sends_app; simpl; by rewrite app_nil_r.
  - destruct (timers w !! tid); [|done]. case_decide; [|done].
    unfold resume. simpl. destruct (calls w !! _); [|done].
    destruct (success _); simpl; [done|].
    rewrite sends_app. simpl. by rewrite app_nil_r.
  - unfold send. case_decide; simpl; [|done].
    rewrite sends_app. simpl. by rewrite app_nil_r.
Qed.

Lemma sends_of_step `{Platform} k e w :
  sends_of k (step e w) =
  sends_of k w ++
    match e with
    | EvPong r => map pong_send (subscribed k w r)
    | _ => []
    end.
Proof.
  unfold sends_of, subscribed.
  assert ((∃ r, e = EvPong r) ∨ (∀ r, e ≠ EvPong r)) as [[r ->]|Hne]
    by (destruct e; eauto).
  - destruct (step_pong_spec r w) as (_ & _ & _ & _ & -> & _).
    by rewrite filter_app, filter_pong_send.
  - rewrite sends_quiet_call by done.
    destruct e; rewrite ?app_nil_r; try done. by destruct (Hne socket).
Qed.

Lemma pongOnce_step `{Platform} e w r :
  pongOnce (the_socket (step e w) r) =
  match e with
  | EvPong r' => if decide (r' = r) then [] else pongOnce (the_socket w r)
  | EvSend this msg =>
      if decide (readyState (the_socket w (session_socket this)) = OPEN) then
        if decide (session_socket this = r) then
          pongOnce (the_socket w r) ++
            [{| pl_this := this; pl_message := msg; pl_call := length (calls w) |}]
        else pongOnce (the_socket w r)
      else pongOnce (the_socket w r)
  | _ => pongOnce (the_socket w r)
  end.
Proof.
  destruct (quiet e) eqn:Hq.
  { apply Is_true_true in Hq. rewrite (sf_pongOnce _ _ (quiet_frame e w Hq)).
    by destruct e. }
  destruct e; try done.
  - by destruct (step_pong_spec socket w) as (_ & _ & _ & -> & _).
  - simpl. destruct (writeCallbacks w !! wid); [|done].
    destruct error; simpl; [done|].
    unfold clearTimeout. by destruct (_ ≫= _).
  - simpl. destruct (timers w !! tid); [|done]. case_decide; [|done].
    unfold resume. simpl. destruct (calls w !! _); [|done].
    by destruct (success _).
  - simpl. unfold send. case_decide; simpl; [|done].
    unfold the_socket. simpl. rewrite lookup_insert.
    by destruct (decide (session_socket session = r)) as [<-|].
Qed.

Lemma subscribed_step `{Platform} k e w r :
  wf w → k < length (calls w) →
  subscribed k (step e w) r =
  match e with
  | EvPong r' => if decide (r' = r) then [] else subscribed k w r
  | _ => subscribed k w r
  end.
Proof.
  intros Hwf Hk. unfold subscribed. rewrite pongOnce_step.
  destruct e; try done.
  - by case_decide.
  - repeat case_decide; try done.
    rewrite filter_app, filter_cons, filter_nil. simpl.
    rewrite decide_False by lia. by rewrite app_nil_r.
Qed.

Lemma length_calls_step `{Platform} e w :
  (length (calls w) ≤ length (calls (step e w)))%nat.
Proof.
  destruct (quiet e) eqn:Hq.
  { apply Is_true_true in Hq. by rewrite (sf_calls _ _ (quiet_frame e w Hq)). }
  destruct e; try done.
  - by destruct (step_pong_spec socket w) as (-> & _).
  - simpl. destruct (writeCallbacks w !! wid); [|done].
    destruct error; simpl; [done|].
    unfold clearTimeout. destruct (_ ≫= _); simpl; by rewrite length_alter.
  - simpl. destruct (timers w !! tid); [|done]. case_decide; [|done].
    unfold resume. simpl. destruct (calls w !! _); [|done].
    destruct (success _); simpl; by rewrite length_alter.
  - simpl. unfold send. case_decide; simpl.
    + unfold upd_call. simpl. rewrite length_alter, length_app. lia.
    + rewrite length_app. lia.
Qed.

Lemma Waiting_step `{Platform} k tid t0 fired e w :
  wf w → Waiting k tid t0 fired w →
  (∀ r, e = EvPong r → subscribed k w r = []) →
  Waiting k tid t0 (fired || fires tid t0 e w) (step e w).
Proof.
  intros Hwf (c & Hc & Hs & Hid & Hres & Hwc & Hf) Hpong.
  destruct (quiet e) eqn:Hq.
  { apply Is_true_true in Hq. destruct (quiet_frame e w Hq) as [Ec Et _ Ew _ _].
    assert (fires tid t0 e w = false) as -> by by destruct e.
    rewrite orb_false_r. exists c. by rewrite Ec, Et, Ew. }
  destruct e; try done.
  - (* pong *)
    destruct (step_pong_spec socket w) as (Ec & Et & _ & _ & _ & Ew).
    simpl fires. rewrite orb_false_r. exists c. rewrite Ec, Et.
    repeat split; try done.
    intros wid Hwid. destruct (Ew _ _ Hwid) as [?|(l & Hl & Hlk)]; [by eapply Hwc|].
    specialize (Hpong socket eq_refl). unfold subscribed in Hpong.
    assert (l ∈ filter (λ l, pl_call l = k) (pongOnce (the_socket w socket))) as Hin
      by by apply list_elem_of_filter.
    rewrite Hpong in Hin. by apply elem_of_nil in Hin.
  - (* write callback *)
    simpl fires. rewrite orb_false_r. simpl.
    destruct (writeCallbacks w !! wid) as [k'|] eqn:Ek'; [|by exists c].
    assert (k' ≠ k) as Hne by (intros ->; by eapply Hwc).
    destruct error as [e|]; simpl.
    + exists c. repeat split; try done.
      intros wid'. simpl. intros [_ ?]%lookup_delete_Some. by eapply Hwc.
    + unfold clearTimeout. rewrite list_lookup_alter_eq.
      assert (∀ wid', delete wid (writeCallbacks w) !! wid' ≠ Some k) as Hwc'.
      { intros wid' [_ ?]%lookup_delete_Some. by eapply Hwc. }
      destruct (calls w !! k') as [c'|] eqn:Ec'; simpl;
        [destruct (timeoutId c') as [tid'|] eqn:Etid'|]; simpl;
        exists c; simpl; rewrite list_lookup_alter_ne by done;
        repeat split; try done.
      assert (tid' ≠ tid) as Htid.
      { intros ->. apply Hne. by eapply (wf_timeoutId_inj _ Hwf k' k). }
      rewrite lookup_delete_ne by done. done.
  - (* timer *)
    simpl. destruct (timers w !! tid0) as [t'|] eqn:Et'; cycle 1.
    { destruct fired; simpl; [by exists c|].
      destruct Hf as [Ht Hp].
      rewrite bool_decide_eq_false_2; [by exists c|]. intros ->. congruence. }
    case_decide as Hdue; cycle 1.
    { destruct fired; simpl; [by exists c|].
      destruct Hf as [Ht Hp].
      destruct (decide (tid0 = tid)) as [->|Hne].
      - assert (t' = t0) as -> by congruence.
        rewrite (bool_decide_eq_false_2 (due t0 ≤ now w)%N) by done.
        rewrite andb_false_r. by exists c.
      - rewrite bool_decide_eq_false_2 by done. by exists c. }
    destruct (wf_timer _ Hwf _ _ Et') as (c' & Hc' & Hid' & Hs' & Hp').
    unfold resume. simpl. rewrite Hc', Hs'. simpl.
    destruct (decide (tid0 = tid)) as [->|Hne].
    + destruct fired; [destruct Hf; congruence|]. destruct Hf as [Ht Hp].
      assert (t' = t0) as -> by congruence.
      rewrite !bool_decide_eq_true_2 by done. simpl.
      rewrite Hres. exists (set_promise (Rejected ping_error) c). simpl.
      rewrite list_lookup_alter_eq, Hc. simpl. repeat split; try done.
      apply lookup_delete_eq.
    + rewrite bool_decide_eq_false_2 by done. simpl. rewrite orb_false_r.
      assert (resumes t' ≠ k) as Hk.
      { intros E. rewrite E in Hc'. congruence. }
      exists c. simpl. rewrite list_lookup_alter_ne by done.
      rewrite lookup_delete_ne by done. done.
  - (* send *)
    simpl fires. rewrite orb_false_r. simpl. unfold send.
    assert (k < length (calls w)) as Hk by by eapply lookup_lt_Some.
    assert (tid < nextTimer w) as Htid by by eapply wf_timeoutId.
    case_decide; simpl.
    + unfold upd_call. simpl. rewrite alter_snoc.
      exists c. simpl. rewrite lookup_app_l by done.
      rewrite lookup_insert_ne by lia. done.
    + exists c. simpl. rewrite lookup_app_l by done. done.
Qed.

Lemma subscribed_fresh `{Platform} w r : wf w → subscribed (length (calls w)) w r = [].
Proof.
  intros Hwf. unfold subscribed.
  apply elem_of_nil_inv. intros l [Hc Hl]%list_elem_of_filter.
  pose proof (wf_pongOnce _ Hwf _ _ Hl). lia.
Qed.

Lemma sends_of_fresh `{Platform} w : wf w → sends_of (length (calls w)) w = [].
Proof.
  intros Hwf. unfold sends_of.
  apply elem_of_nil_inv. intros [[r d] k] [Hc Hl]%list_elem_of_filter.
  simpl in Hc. pose proof (wf_sends _ Hwf _ _ _ Hl). lia.
Qed.

Lemma send_open_spec `{Platform} this msg w :
  wf w → readyState (the_socket w (session_socket this)) = OPEN →
  let w1 := (send this msg w).1 in
  let k := length (calls w) in
  (send this msg w).2 = k ∧
  Waiting k (nextTimer w) {| due := now w + delay_ms; resumes := k |} false w1 ∧
  (∀ r, subscribed k w1 r =
        if decide (session_socket this = r) then
          [{| pl_this := this; pl_message := msg; pl_call := k |}]
        else []) ∧
  sends_of k w1 = [] ∧
  trace w1 = trace w ++ [SocketPing (session_socket this) "ping"].
Proof.
  intros Hwf Hopen. simpl.
  assert (Hstep : (send this msg w).1 = step (EvSend this msg) w) by done.
  repeat split.
  - unfold send. by case_decide.
  - unfold send. rewrite decide_True by done. simpl.
    unfold upd_call, Waiting. simpl. rewrite alter_snoc. simpl.
    eexists. split; [by apply list_lookup_middle|]. simpl.
    repeat split; try done.
    + intros wid Hwid. pose proof (wf_writeCallbacks _ Hwf _ _ Hwid). lia.
    + apply lookup_insert_eq.
  - intros r. rewrite Hstep. unfold subscribed. rewrite pongOnce_step.
    rewrite decide_True by done.
    pose proof (subscribed_fresh w r Hwf) as Hfr. unfold subscribed in Hfr.
    case_decide; [|done].
    rewrite filter_app, Hfr, filter_cons, filter_nil. simpl.
    by rewrite decide_True.
  - rewrite Hstep, sends_of_step. rewrite app_nil_r. by apply sends_of_fresh.
  - unfold send. by rewrite decide_True.
Qed.

Lemma Subscribed_run `{Platform} k r l0 tid t0 es w fired :
  wf w → no_pong r es = true → Subscribed k r l0 w → Waiting k tid t0 fired w →
  wf (run es w) ∧ Subscribed k r l0 (run es w) ∧
  (∃ fired', Waiting k tid t0 fired' (run es w) ∧ (fired = true → fired' = true)) ∧
  sends_of k (run es w) = sends_of k w.
Proof.
  revert w fired. induction es as [|e es IH]; intros w fired Hwf Hnp Hsub Hwait.
  { simpl. eauto 10. }
  simpl in Hnp. apply andb_true_iff in Hnp as [He Hnp].
  apply negb_true_iff in He.
  assert (k < length (calls w)) as Hk.
  { destruct Hwait as (c & Hc & _). by eapply lookup_lt_Some. }
  assert (∀ r', e = EvPong r' → subscribed k w r' = []) as Hpong.
  { intros r' ->. simpl in He. apply bool_decide_eq_false in He.
    rewrite Hsub. by rewrite decide_False by congruence. }
  destruct (IH (step e w) (fired || fires tid t0 e w)) as (Hwf' & Hsub' & (f' & Hw' & Hf') & Hs').
  - by apply wf_step.
  - done.
  - intros r'. rewrite subscribed_step by done.
    destruct e; try apply Hsub.
    simpl in He. apply bool_decide_eq_false in He.
    case_decide; [subst|apply Hsub]. by rewrite decide_False by congruence.
  - by apply Waiting_step.
  - simpl. split; [done|]. split; [done|]. split.
    + exists f'. split; [done|]. intros ->. by apply Hf'.
    + simpl in Hs'. rewrite Hs', sends_of_step.
      destruct e; rewrite ?app_nil_r; try done.
      by rewrite (Hpong socket eq_refl), app_nil_r.
Qed.

Lemma Unsubscribed_step `{Platform} k e w :
  wf w → k < length (calls w) → Unsubscribed k w → Unsubscribed k (step e w).
Proof.
  intros Hwf Hk Hun r'. rewrite subscribed_step by done.
  destruct e; try apply Hun. by case_decide.
Qed.

Lemma Unsubscribed_run `{Platform} k es w :
  wf w → k < length (calls w) → Unsubscribed k w →
  Unsubscribed k (run es w) ∧ sends_of k (run es w) = sends_of k w.
Proof.
  revert w. induction es as [|e es IH]; intros w Hwf Hk Hun; [done|].
  destruct (IH (step e w)) as (Hun' & Hs').
  - by apply wf_step.
  - pose proof (length_calls_step e w). lia.
  - intros r'. rewrite subscribed_step by done. destruct e; try apply Hun.
    by case_decide.
  - split; [done|]. simpl. simpl in Hs'. rewrite Hs', sends_of_step.
    destruct e; rewrite ?app_nil_r; try done. by rewrite Hun, app_nil_r.
Qed.

Lemma Subscribed_pong `{Platform} k r l0 w :
  wf w → k < length (calls w) → Subscribed k r l0 w →
  Unsubscribed k (step (EvPong r) w) ∧
  sends_of k (step (EvPong r) w) = sends_of k w ++ [pong_send l0].
Proof.
  intros Hwf Hk Hsub. split.
  - intros r'. rewrite subscribed_step by done.
    case_decide; [done|]. by rewrite Hsub, decide_False by congruence.
  - rewrite sends_of_step, Hsub. by rewrite decide_True.
Qed.

(** C6: when the peer's pong arrives after [send] on an open socket (whatever
    else happened in between, and in particular when it arrives within the
    bound), the payload is handed to [socket.send] exactly once on behalf of
    that call, on the socket of the session, and the data is
    [JSON.stringify(encryptedMessage)]; nothing was written before the pong and
    no later event writes it again. *)
Theorem send_writes_payload_once `{Platform} es0 this msg es1 es2 :
  let w := run es0 init in
  let r := session_socket this in
  readyState (the_socket w r) = OPEN →
  no_pong r es1 = true →
  let w1 := (send this msg w).1 in
  let k := (send this msg w).2 in
  sends_of k (run es1 w1) = [] ∧
  sends_of k (run (es1 ++ EvPong r :: es2) w1) = [(r, JSON_stringify msg, k)].
Proof.
  intros w r Hopen Hnp w1 k.
  assert (wf w) as Hwf by apply wf_run, wf_init.
  destruct (send_open_spec this msg w Hwf Hopen) as (Hk & Hwait & Hsub & Hs & _).
  fold w1 in Hwait, Hsub, Hs. fold k in Hk. rewrite <- Hk in Hwait, Hsub, Hs.
  assert (wf w1) as Hwf1 by apply (wf_step (EvSend this msg)), Hwf.
  destruct (Subscribed_run k r _ _ _ es1 w1 false Hwf1 Hnp Hsub Hwait)
    as (Hwf2 & Hsub2 & (f & Hw2 & _) & Hs2).
  rewrite Hs in Hs2. split; [done|].
  assert (k < length (calls (run es1 w1))) as Hk2.
  { destruct Hw2 as (c & Hc & _). by eapply lookup_lt_Some. }
  destruct (Subscribed_pong k r _ _ Hwf2 Hk2 Hsub2) as (Hun3 & Hs3).
  rewrite Hs2 in Hs3.
  rewrite run_app, run_cons.
  destruct (Unsubscribed_run k es2 (step (EvPong r) (run es1 w1))) as (_ & ->).
  - by apply wf_step.
  - pose proof (length_calls_step (EvPong r) (run es1 w1)). lia.
  - done.
  - rewrite Hs3. unfold pong_send. simpl. by rewrite Hk.
Qed.

Lemma call_step `{Platform} e w k c :
  wf w → calls w !! k = Some c →
  ∃ c', calls (step e w) !! k = Some c' ∧ timeoutId c' = timeoutId c ∧
        (success c = true → success c' = true) ∧
        (promise c' = promise c ∨
         (promise c = Pending ∧ success c = false ∧
          promise c' = Rejected ping_error)).
Proof.
  intros Hwf Hc.
  destruct (quiet e) eqn:Hq.
  { apply Is_true_true in Hq. rewrite (sf_calls _ _ (quiet_frame e w Hq)). eauto 10. }
  destruct e; try done.
  - destruct (step_pong_spec socket w) as (-> & _). eauto 10.
  - simpl. destruct (writeCallbacks w !! wid) as [k'|]; [|eauto 10].
    destruct error; simpl; [eauto 10|].
    assert (∃ c', alter (set_success true) k' (calls w) !! k = Some c' ∧
      timeoutId c' = timeoutId c ∧ (success c = true → success c' = true) ∧
      promise c' = promise c) as (c' & ? & ? & ? & ?).
    { rewrite list_lookup_alter. case_decide; subst; rewrite Hc; simpl; eauto. }
    unfold clearTimeout. destruct (_ ≫= _); simpl; eauto 10.
  - simpl. destruct (timers w !! tid) as [t|] eqn:Et; [|eauto 10].
    case_decide; [|eauto 10].
    destruct (wf_timer _ Hwf _ _ Et) as (c0 & Hc0 & _ & Hs0 & Hp0).
    unfold resume. simpl. rewrite Hc0, Hs0. simpl.
    rewrite list_lookup_alter. case_decide; subst; rewrite Hc; simpl; [|eauto 10].
    assert (c0 = c) as -> by congruence.
    eexists. split; [done|]. simpl. split; [done|]. split; [congruence|]. by right.
  - simpl. unfold send.
    assert (k < length (calls w)) as Hk by by eapply lookup_lt_Some.
    case_decide; simpl.
    + unfold upd_call. simpl. rewrite alter_snoc, lookup_app_l by done. eauto 10.
    + rewrite lookup_app_l by done. eauto 10.
Qed.

Lemma succeeded_run `{Platform} es w k c :
  wf w → calls w !! k = Some c → success c = true → promise c = Pending →
  promise_of (run es w) k = Some Pending.
Proof.
  revert w c. induction es as [|e es IH]; intros w c Hwf Hc Hs Hp.
  { unfold promise_of. simpl. rewrite Hc. simpl. by rewrite Hp. }
  destruct (call_step e w k c Hwf Hc) as (c' & Hc' & _ & Hs' & [Hp'|(_ & ? & _)]);
    [|congruence].
  rewrite run_cons. eapply IH; eauto using wf_step. congruence.
Qed.

Lemma settled_run `{Platform} es w k p :
  wf w → promise_of w k = Some p → p ≠ Pending → promise_of (run es w) k = Some p.
Proof.
  revert w. induction es as [|e es IH]; intros w Hwf Hp Hne; [done|].
  unfold promise_of in Hp.
  destruct (calls w !! k) as [c|] eqn:Hc; simplify_eq/=.
  destruct (call_step e w k c Hwf Hc) as (c' & Hc' & _ & _ & [Hp'|(? & _)]);
    [|congruence].
  apply IH; [by apply wf_step| |done]. unfold promise_of. rewrite Hc'. simpl.
  by rewrite Hp'.
Qed.

Lemma Waiting_run_pending `{Platform} k tid t0 es w :
  wf w → Unsubscribed k w → Waiting k tid t0 false w → no_timer tid es = true →
  wf (run es w) ∧ Waiting k tid t0 false (run es w).
Proof.
  revert w. induction es as [|e es IH]; intros w Hwf Hun Hw Hnt; [done|].
  simpl in Hnt. apply andb_true_iff in Hnt as [He Hnt].
  assert (k < length (calls w)) as Hk.
  { destruct Hw as (c & Hc & _). by eapply lookup_lt_Some. }
  rewrite run_cons. apply IH; [by apply wf_step| | |done].
  - intros r'. rewrite subscribed_step by done. destruct e; try apply Hun.
    by case_decide.
  - assert (fires tid t0 e w = false) as Hf.
    { destruct e; try done. simpl. apply negb_true_iff in He. by rewrite He. }
    pose proof (Waiting_step k tid t0 false e w Hwf Hw) as Hstep.
    rewrite Hf in Hstep. apply Hstep. intros r' _. apply Hun.
Qed.

Lemma timer_fires `{Platform} tid t w :
  wf w → timers w !! tid = Some t → (due t ≤ now w)%N →
  let w' := step (EvTimer tid) w in
  trace w' = trace w ++ [Log LvlError "Error pinging endpoint" None] ∧
  promise_of w' (resumes t) = Some (Rejected ping_error).
Proof.
  intros Hwf Ht Hdue. simpl. rewrite Ht. rewrite decide_True by done.
  destruct (wf_timer _ Hwf _ _ Ht) as (c & Hc & _ & Hs & _).
  unfold resume, promise_of. simpl. rewrite Hc, Hs. simpl.
  by rewrite list_lookup_alter_eq, Hc.
Qed.

(** C1, on the code: socket 0 is open, [send] is called, the pong arrives
    and the write completes without error.  The payload has been handed to the
    socket and the success is logged, but the callback's [clearTimeout] has
    removed the only timer that could resolve the promise of [delay]: no timer
    is left, and whatever events follow, the promise returned by [send] stays
    pending.  In no reachable world is the promise of any [send] resolved. *)
Theorem send_never_returns_after_write `{Platform} msg es :
  let w := run (acked_send msg ++ [EvSent 0 None]) init in
  trace w = [SocketPing 0 "ping"; SocketSend 0 (JSON_stringify msg) 0;
             Log LvlDebug "WebSocket sent message successfully." None] ∧
  calls w = [{| success := true; timeoutId := Some 0; promise := Pending |}] ∧
  timers w = ∅ ∧
  promise_of (run es w) 0 = Some Pending ∧
  (∀ es' k, promise_of (run es' init) k ≠ Some Resolved).
Proof.
  intros w.
  assert (wf w) as Hwf by apply wf_run, wf_init.
  assert (calls w = [{| success := true; timeoutId := Some 0; promise := Pending |}])
    as Hc by reflexivity.
  split; [reflexivity|]. split; [exact Hc|]. split; [reflexivity|]. split.
  - apply (succeeded_run es w 0
      {| success := true; timeoutId := Some 0; promise := Pending |} Hwf);
      [by rewrite Hc|done|done].
  - intros es' k. unfold promise_of.
    destruct (calls (run es' init) !! k) as [c|] eqn:Ec; [|done].
    simpl. intros [= Hp]. by eapply (wf_promise _ (wf_run es' init wf_init)).
Qed.

(** C2, on the code: socket 0 is open, [send] is called, the pong arrives
    and the write reports the error [e].  The error is logged and the
    [AriesFrameworkError] is thrown inside the callback of [socket.send], where
    it escapes uncaught; the promise returned by [send] stays pending as long
    as the timer of [delay] has not fired.  Only when that timer fires, after
    the 10 s bound, is [send] rejected, by the branch that logs
    'Error pinging endpoint'. *)
Theorem write_error_is_not_reported `{Platform} msg e es :
  no_timer 0 es = true →
  let w := run (acked_send msg ++ [EvSent 0 (Some e)]) init in
  trace w = [SocketPing 0 "ping"; SocketSend 0 (JSON_stringify msg) 0;
             Log LvlError ("Error sending message: " ++ e) None;
             Uncaught write_error] ∧
  promise_of (run es w) 0 = Some Pending ∧
  let w' := run (es ++ [EvTick delay_ms]) w in
  trace (step (EvTimer 0) w') =
    trace w' ++ [Log LvlError "Error pinging endpoint" None] ∧
  promise_of (step (EvTimer 0) w') 0 = Some (Rejected ping_error).
Proof.
  intros Hnt w.
  assert (wf w) as Hwf by apply wf_run, wf_init.
  set (t0 := {| due := delay_ms; resumes := 0 |}).
  assert (Waiting 0 0 t0 false w) as Hw.
  { eexists. split; [reflexivity|]. by repeat split. }
  assert (Unsubscribed 0 w) as Hun.
  { set (w0 := run [EvReadyState 0 OPEN] init).
    assert (wf w0) as Hwf0 by apply wf_run, wf_init.
    destruct (send_open_spec session0 msg w0 Hwf0 eq_refl) as (_ & _ & Hsub & _).
    set (w1 := (send session0 msg w0).1) in *.
    assert (wf w1) as Hwf1 by apply (wf_step (EvSend session0 msg)), Hwf0.
    assert (0 < length (calls w1)) as Hk1 by (vm_compute; lia).
    destruct (Subscribed_pong 0 0 _ w1 Hwf1 Hk1 Hsub) as (Hun & _).
    apply (Unsubscribed_step 0 (EvSent 0 (Some e)));
      [by apply wf_step|vm_compute; lia|done]. }
  split; [reflexivity|].
  destruct (Waiting_run_pending 0 0 t0 es w Hwf Hun Hw Hnt) as (Hwf2 & (c & Hc & _ & _ & _ & _ & Ht & Hp)).
  split. { unfold promise_of. rewrite Hc. simpl. by rewrite Hp. }
  intros w'. subst w'. rewrite run_snoc.
  set (w2 := run es w) in *.
  assert (wf (step (EvTick delay_ms) w2)) as Hwf3 by by apply wf_step.
  apply (timer_fires 0 t0 _ Hwf3); [done|]. simpl. lia.
Qed.

Lemma first_pong `{Platform} r es :
  no_pong r es = false →
  ∃ es1 es2, es = es1 ++ EvPong r :: es2 ∧ no_pong r es1 = true.
Proof.
  induction es as [|e es IH]; [done|]. simpl.
  destruct (is_pong r e) eqn:He; simpl.
  - intros _. exists [], es. split; [|done].
    destruct e; try done. simpl in He. by apply bool_decide_eq_true in He as ->.
  - intros Hes. destruct (IH Hes) as (es1 & es2 & -> & Hnp).
    exists (e :: es1), es2. split; [done|]. simpl. by rewrite He.
Qed.

(** C3, as the code has it: the timeout does not cancel the "pong" listener
    of the call.  When [send] on an open socket has been rejected by its
    timer: if no pong has arrived on the socket since the call, the listener
    is still registered, once, and nothing has been written for the call; if
    a pong has arrived (the write was still awaited, or had failed, when the
    timer fired), the listener has run and the payload has been written once.
    Either way, after the next pong on the socket the payload of the rejected
    call has been handed to [socket.send] exactly once, and the rejection
    already reported stays as it is. *)
Theorem timed_out_send_stays_subscribed `{Platform} es0 this msg es :
  let w := run es0 init in
  let r := session_socket this in
  readyState (the_socket w r) = OPEN →
  let k := (send this msg w).2 in
  let w2 := run es (send this msg w).1 in
  promise_of w2 k = Some (Rejected ping_error) →
  (no_pong r es = true →
     subscribed k w2 r = [{| pl_this := this; pl_message := msg; pl_call := k |}] ∧
     sends_of k w2 = []) ∧
  (no_pong r es = false →
     subscribed k w2 r = [] ∧ sends_of k w2 = [(r, JSON_stringify msg, k)]) ∧
  sends_of k (step (EvPong r) w2) = [(r, JSON_stringify msg, k)] ∧
  promise_of (step (EvPong r) w2) k = Some (Rejected ping_error).
Proof.
  intros w r Hopen k w2 Hrej.
  assert (wf w) as Hwf by apply wf_run, wf_init.
  destruct (send_open_spec this msg w Hwf Hopen) as (Hk & Hwait & Hsub & Hs & _).
  fold k in Hk. rewrite <- Hk in Hwait, Hsub, Hs.
  assert (wf (send this msg w).1) as Hwf1 by apply (wf_step (EvSend this msg)), Hwf.
  assert (promise_of (step (EvPong r) w2) k = Some (Rejected ping_error)) as Hrej'.
  { unfold promise_of. by destruct (step_pong_spec r w2) as (-> & _). }
  assert (pong_send {| pl_this := this; pl_message := msg; pl_call := k |} =
          (r, JSON_stringify msg, k)) as Hps by done.
  destruct (no_pong r es) eqn:Hnp.
  - destruct (Subscribed_run k r _ _ _ es _ false Hwf1 Hnp Hsub Hwait)
      as (Hwf2 & Hsub2 & (f & Hw2 & _) & Hs2).
    fold w2 in Hwf2, Hsub2, Hw2, Hs2. rewrite Hs in Hs2.
    assert (k < length (calls w2)) as Hk2.
    { destruct Hw2 as (c & Hc & _). by eapply lookup_lt_Some. }
    destruct (Subscribed_pong k r _ _ Hwf2 Hk2 Hsub2) as (_ & Hs3).
    split. { intros _. split; [|done]. rewrite Hsub2. by rewrite decide_True. }
    split; [done|]. split; [|done].
    by rewrite Hs3, Hs2, Hps.
  - destruct (first_pong r es Hnp) as (es1 & es2 & Hes & Hnp1).
    destruct (Subscribed_run k r _ _ _ es1 _ false Hwf1 Hnp1 Hsub Hwait)
      as (Hwf2 & Hsub2 & (f & Hw2 & _) & Hs2).
    rewrite Hs in Hs2.
    assert (k < length (calls (run es1 (send this msg w).1))) as Hk2.
    { destruct Hw2 as (c & Hc & _). by eapply lookup_lt_Some. }
    destruct (Subscribed_pong k r _ _ Hwf2 Hk2 Hsub2) as (Hun3 & Hs3).
    rewrite Hs2, Hps, app_nil_l in Hs3.
    assert (w2 = run es2 (step (EvPong r) (run es1 (send this msg w).1))) as Hw2'.
    { unfold w2. by rewrite Hes, run_app, run_cons. }
    destruct (Unsubscribed_run k es2 (step (EvPong r) (run es1 (send this msg w).1)))
      as (Hun4 & Hs4).
    { by apply wf_step. }
    { pose proof (length_calls_step (EvPong r) (run es1 (send this msg w).1)). lia. }
    { done. }
    rewrite <- Hw2' in Hun4, Hs4. rewrite Hs3 in Hs4.
    split; [done|]. split. { intros _. split; [apply Hun4|done]. }
    split; [|done].
    by rewrite sends_of_step, Hun4, Hs4.
Qed.

(** C5, as the code has it: when no pong arrives on the socket after [send]
    and the timer of [delay] fires once the 10 s have passed, [send] is
    rejected with the error 'WebSocket send message failed.', which is the
    very error the write callback throws, and no payload has been written for
    the call. *)
Theorem send_times_out_without_write `{Platform} es0 this msg es :
  let w := run es0 init in
  let r := session_socket this in
  readyState (the_socket w r) = OPEN →
  no_pong r es = true →
  let k := (send this msg w).2 in
  let w1 := (send this msg w).1 in
  (now w + delay_ms ≤ now (run es w1))%N →
  let w2 := run (es ++ [EvTimer (nextTimer w)]) w1 in
  promise_of w2 k = Some (Rejected ping_error) ∧
  ping_error = write_error ∧
  sends_of k w2 = [].
Proof.
  intros w r Hopen Hnp k w1 Hdue w2.
  assert (wf w) as Hwf by apply wf_run, wf_init.
  destruct (send_open_spec this msg w Hwf Hopen) as (Hk & Hwait & Hsub & Hs & _).
  fold k in Hk. fold w1 in Hwait, Hsub, Hs. rewrite <- Hk in Hwait, Hsub, Hs.
  assert (wf w1) as Hwf1 by apply (wf_step (EvSend this msg)), Hwf.
  assert (no_pong r (es ++ [EvTimer (nextTimer w)]) = true) as Hnp'.
  { unfold no_pong. rewrite forallb_app. fold (no_pong r es). by rewrite Hnp. }
  destruct (Subscribed_run k r _ _ _ _ w1 false Hwf1 Hnp' Hsub Hwait)
    as (_ & _ & _ & Hs2).
  fold w2 in Hs2. rewrite Hs in Hs2.
  split; [|done].
  destruct (Subscribed_run k r _ _ _ es w1 false Hwf1 Hnp Hsub Hwait)
    as (Hwf2 & Hsub2 & (f & Hw2 & _) & _).
  subst w2. rewrite run_snoc.
  set (t0 := {| due := now w + delay_ms; resumes := k |}) in *.
  assert (Waiting k (nextTimer w) t0 (f || true)
            (step (EvTimer (nextTimer w)) (run es w1))) as Hw3.
  { replace true with (fires (nextTimer w) t0 (EvTimer (nextTimer w)) (run es w1)) at 1.
    - apply Waiting_step; done.
    - simpl. by rewrite !bool_decide_eq_true_2. }
  rewrite orb_true_r in Hw3. destruct Hw3 as (c & Hc & _ & _ & _ & _ & _ & Hp).
  unfold promise_of. rewrite Hc. simpl. by rewrite Hp.
Qed.

(** C4: when the socket of the session is not OPEN, [send] returns a promise
    that is already rejected with 'WebSocket transport session has been
    closed.', and the call has done nothing else: no ping and no write (the
    trace is unchanged), no listener on any socket, no timer, no write
    callback. *)
Theorem send_on_closed_fails_immediately `{Platform} this msg w :
  readyState (the_socket w (session_socket this)) ≠ OPEN →
  let k := (send this msg w).2 in
  let w1 := (send this msg w).1 in
  promise_of w1 k = Some (Rejected closed_error) ∧
  closed_error = AriesFrameworkError "WebSocket transport session has been closed." ∧
  trace w1 = trace w ∧ sockets w1 = sockets w ∧ timers w1 = timers w ∧
  writeCallbacks w1 = writeCallbacks w.
Proof.
  intros Hclosed. unfold send. rewrite decide_False by done. simpl.
  repeat split. unfold promise_of. simpl. by rewrite list_lookup_middle.
Qed.

Lemma close_open `{Platform} this w :
  readyState (the_socket w (session_socket this)) = OPEN →
  close this w = (socket_close (session_socket this) w, Resolved).
Proof. intros Hopen. unfold close. by rewrite decide_True. Qed.

Lemma close_not_open `{Platform} this w :
  readyState (the_socket w (session_socket this)) ≠ OPEN →
  close this w = (w, Resolved).
Proof. intros Hopen. unfold close. by rewrite decide_False. Qed.

(** C9: [close()] always resolves; on an OPEN socket it calls
    [socket.close()], on any other it leaves the world as it is; and calling it
    a second time changes nothing. *)
Theorem close_idempotent `{Platform} this w :
  let r := session_socket this in
  let w1 := (close this w).1 in
  (close this w).2 = Resolved ∧
  (if decide (readyState (the_socket w r) = OPEN) then
     trace w1 = trace w ++ [SocketClose r] ∧
     readyState (the_socket w1 r) = CLOSING
   else w1 = w) ∧
  close this w1 = (w1, Resolved).
Proof.
  intros r w1. subst w1 r.
  destruct (decide (readyState (the_socket w (session_socket this)) = OPEN))
    as [Hopen|Hclosed].
  - rewrite (close_open this w Hopen). simpl.
    assert (readyState (the_socket (socket_close (session_socket this) w)
              (session_socket this)) = CLOSING) as Hst.
    { unfold socket_close, the_socket. simpl. by rewrite lookup_insert_eq. }
    split; [done|]. split; [by split|].
    apply close_not_open. by rewrite Hst.
  - rewrite (close_not_open this w Hclosed). simpl.
    split; [done|]. split; [done|]. by apply close_not_open.
Qed.

Lemma dispatch_on_message_inr `{Platform} data url e ls w :
  JSON_parse data = inr e →
  let w' := dispatch (on_message data url) ls w in
  sockets w' = sockets w ∧
  trace w' = trace w ++ ls ≫= (λ _, received_log url e).
Proof.
  intros Hp. revert w. induction ls as [|l ls IH]; intros w; simpl.
  { by rewrite app_nil_r. }
  destruct (IH (on_message data url l w)) as (Hs & Ht).
  unfold dispatch in *. simpl in *. rewrite Hs, Ht.
  unfold on_message. rewrite Hp. simpl. by rewrite <- !app_assoc.
Qed.

Lemma dispatch_on_message_inl `{Platform} data url j ls w :
  JSON_parse data = inl j →
  let w' := dispatch (on_message data url) ls w in
  sockets w' = sockets w ∧
  trace w' = trace w ++ ls ≫= forwarded url j.
Proof.
  intros Hp. revert w. induction ls as [|l ls IH]; intros w; simpl.
  { by rewrite app_nil_r. }
  destruct (IH (on_message data url l w)) as (Hs & Ht).
  unfold dispatch in *. simpl in *. rewrite Hs, Ht.
  unfold on_message. rewrite Hp. simpl. by rewrite <- !app_assoc.
Qed.

Lemma listener_frame_refl `{Platform} w : listener_frame w w.
Proof. by split. Qed.

Lemma listener_frame_trans `{Platform} w1 w2 w3 :
  listener_frame w1 w2 → listener_frame w2 w3 → listener_frame w1 w3.
Proof. intros [] []. split; intros; etrans; eauto. Qed.

Lemma listener_frame_same `{Platform} w w' :
  sockets w' = sockets w → socketIds w' = socketIds w → listener_frame w w'.
Proof. intros Hs Hi. split; [done|]. intros r. unfold the_socket. by rewrite Hs. Qed.

Lemma listener_frame_upd `{Platform} r f w :
  (∀ s, closeListeners (f s) = closeListeners s) →
  listener_frame w (upd_socket r f w).
Proof.
  intros Hf. split; [done|]. intros r'. rewrite the_socket_upd.
  case_decide; subst; auto.
Qed.

Lemma listener_frame_step `{Platform} e w :
  (∀ r, e ≠ EvConnection r) → listener_frame w (step e w).
Proof.
  intros Hne. destruct e; simpl.
  - by apply listener_frame_same.
  - by destruct (Hne socket).
  - by apply listener_frame_upd.
  - apply (dispatch_ind (listener_frame w)); [|apply listener_frame_refl].
    intros l w' Hw'. eapply listener_frame_trans; [exact Hw'|].
    unfold on_message. destruct (JSON_parse _); by apply listener_frame_same.
  - case_decide; [|apply listener_frame_refl].
    destruct error; by apply listener_frame_same.
  - apply (dispatch_ind (listener_frame w)).
    + intros l w' Hw'. eapply listener_frame_trans; [exact Hw'|].
      by apply listener_frame_same.
    + by apply listener_frame_upd.
  - apply (dispatch_ind (listener_frame w)).
    + intros l w' Hw'. eapply listener_frame_trans; [exact Hw'|].
      by apply listener_frame_same.
    + by apply listener_frame_upd.
  - destruct (writeCallbacks w !! wid); [|apply listener_frame_refl].
    destruct error; simpl; [by apply listener_frame_same|].
    unfold clearTimeout. destruct (_ ≫= _); by apply listener_frame_same.
  - by apply listener_frame_same.
  - destruct (timers w !! tid); [|apply listener_frame_refl].
    case_decide; [|apply listener_frame_refl].
    unfold resume. simpl. destruct (calls w !! _); [|by apply listener_frame_same].
    destruct (success _); by apply listener_frame_same.
  - unfold send. case_decide; simpl; [|by apply listener_frame_same].
    split; [done|]. intros r'. unfold the_socket. simpl. rewrite lookup_insert.
    by destruct (decide (session_socket session = r')) as [<-|].
  - unfold close, socket_close. case_decide; [|apply listener_frame_refl]. simpl.
    apply (listener_frame_trans _
      (upd_socket (session_socket session) (set_readyState CLOSING) w));
      [by apply listener_frame_upd|by apply listener_frame_same].
Qed.

Lemma listener_wf_init `{Platform} : listener_wf init.
Proof.
  split; intros r; unfold the_socket; simpl; rewrite lookup_empty; simpl.
  - by intros l ?%elem_of_nil.
  - constructor.
Qed.

Lemma listener_wf_frame `{Platform} w w' :
  listener_frame w w' → listener_wf w → listener_wf w'.
Proof.
  intros [Hi Hc] [Hr Hn]. split; intros r; rewrite ?Hi, Hc; auto.
Qed.

Lemma on_connection_spec `{Platform} r a w :
  let w' := on_connection r a w in
  let i := uuid (uuidCalls w) in
  if has_socketId w i then listener_frame w w'
  else
    socketIds w !! i = None ∧
    socketIds w' = <[i := r]> (socketIds w) ∧
    ∀ r', closeListeners (the_socket w' r') =
          if decide (r = r') then
            closeListeners (the_socket w r) ++
              [(a, {| session_id := i; session_socket := r |})]
          else closeListeners (the_socket w r').
Proof.
  unfold on_connection, next_uuid, listenOnWebSocketMessages. simpl.
  change (has_socketId (emit _ _) ?i) with (has_socketId w i).
  destruct (has_socketId w _) eqn:E.
  { by apply listener_frame_same. }
  unfold has_socketId in E.
  apply orb_false_iff in E as [E _]. apply bool_decide_eq_false in E.
  apply eq_None_not_Some in E.
  split; [done|]. split; [done|].
  intros r'. unfold the_socket, upd_socket. simpl.
  rewrite !lookup_insert.
  destruct (decide (r = r')) as [<-|Hne]; simpl; [|done].
  f_equal. unfold the_socket. simpl. by rewrite lookup_insert_eq.
Qed.

Lemma listener_wf_on_connection `{Platform} r a w :
  listener_wf w → listener_wf (on_connection r a w).
Proof.
  intros Hwf. pose proof (on_connection_spec r a w) as Hspec. simpl in Hspec.
  destruct (has_socketId _ _).
  { by eapply listener_wf_frame. }
  destruct Hspec as (E & Hi & Hc). destruct Hwf as [Hr Hn].
  assert (∀ r' l, l ∈ closeListeners (the_socket w r') →
            session_id l.2 ≠ uuid (uuidCalls w)) as Hfresh.
  { intros r' l Hl Heq. rewrite <- Heq, (Hr _ _ Hl) in E. done. }
  split; intros r'; rewrite ?Hi, Hc.
  - intros l. destruct (decide (r = r')) as [<-|Hne].
    + intros [Hl| ->%list_elem_of_singleton]%elem_of_app.
      * rewrite lookup_insert_ne; [by apply Hr|]. intros Heq. by eapply Hfresh.
      * simpl. by rewrite lookup_insert_eq.
    + intros Hl. rewrite lookup_insert_ne; [by apply Hr|].
      intros Heq. by eapply Hfresh.
  - destruct (decide (r = r')) as [<-|Hne]; [|apply Hn].
    rewrite fmap_app. apply NoDup_app. split; [apply Hn|]. split.
    + intros x Hx. simpl. intros ->%list_elem_of_singleton.
      apply list_elem_of_fmap in Hx as (l & Heq & Hl). by eapply Hfresh.
    + simpl. apply NoDup_singleton.
Qed.

Lemma listener_wf_step `{Platform} e w : listener_wf w → listener_wf (step e w).
Proof.
  intros Hwf.
  assert ((∃ r, e = EvConnection r) ∨ (∀ r, e ≠ EvConnection r)) as [[r ->]|Hne]
    by (destruct e; eauto).
  - simpl. apply (dispatch_ind listener_wf); [|done].
    intros a w'. apply listener_wf_on_connection.
  - eapply listener_wf_frame; [|done]. by apply listener_frame_step.
Qed.

Lemma listener_wf_run `{Platform} es w : listener_wf w → listener_wf (run es w).
Proof.
  revert w. induction es as [|e es IH]; intros w Hw; [done|].
  apply IH, listener_wf_step, Hw.
Qed.

Lemma dispatch_on_close `{Platform} ls w :
  let w' := dispatch on_close ls w in
  socketIds w' = socketIds w ∧
  ∀ s, removed s (trace w') = removed s (trace w) ++ filter (λ s', s' = s) (ls.*2).
Proof.
  revert w. induction ls as [|l ls IH]; intros w; simpl.
  { split; [done|]. intros s. by rewrite app_nil_r. }
  destruct (IH (on_close l w)) as (Hi & Hr).
  unfold dispatch in *. simpl in *. rewrite Hi. split; [done|].
  intros s. rewrite Hr. unfold removed. simpl.
  rewrite !omap_app, !filter_app. simpl.
  rewrite !filter_cons, !filter_nil. simpl.
  rewrite <- !app_assoc. simpl. by case_decide.
Qed.

Lemma filter_session_once (s : Session) (ls : list (Agent * Session)) a :
  NoDup ((λ l : Agent * Session, session_id l.2) <$> ls) → (a, s) ∈ ls →
  filter (λ s', s' = s) (ls.*2) = [s].
Proof.
  induction ls as [|[a' s'] ls IH]; [by intros _ ?%elem_of_nil|].
  rewrite fmap_cons, NoDup_cons. simpl. intros [Hni Hnd] Hin.
  rewrite filter_cons. simpl.
  apply elem_of_cons in Hin as [[= -> ->]|Hin].
  - rewrite decide_True by done. f_equal.
    apply elem_of_nil_inv. intros x [-> Hx]%list_elem_of_filter.
    apply Hni. apply list_elem_of_fmap in Hx as ([a2 s2] & -> & Hx).
    apply list_elem_of_fmap. by exists (a2, s2).
  - rewrite decide_False; [by apply IH|].
    intros ->. apply Hni. apply list_elem_of_fmap. by exists (a, s).
Qed.

(** C7, as the code has it: on a 'close' event of a socket, for every session
    the listener created for that socket, [removeSession] is called exactly
    once more for that session, and [socketIds] is left as it was: the entry
    of the session is still there. *)
Theorem close_notifies_registry_once `{Platform} es r a s :
  let w := run es init in
  (a, s) ∈ closeListeners (the_socket w r) →
  let w' := step (EvClose r) w in
  socketIds w' = socketIds w ∧
  socketIds w' !! session_id s = Some r ∧
  removed s (trace w') = removed s (trace w) ++ [s].
Proof.
  intros w Hin w'.
  assert (listener_wf w) as [Hr Hn] by apply listener_wf_run, listener_wf_init.
  subst w'. simpl.
  destruct (dispatch_on_close
    (closeListeners (the_socket (upd_socket r (set_readyState CLOSED) w) r))
    (upd_socket r (set_readyState CLOSED) w)) as (Hi & Hrm).
  assert (closeListeners (the_socket (upd_socket r (set_readyState CLOSED) w) r) =
          closeListeners (the_socket w r)) as Hcl.
  { rewrite the_socket_upd. by rewrite decide_True. }
  rewrite Hcl in *. split; [done|]. split.
  - rewrite Hi. simpl. apply (Hr r (a, s) Hin).
  - rewrite Hrm. simpl. f_equal. by eapply filter_session_once.
Qed.


(** C10: [socketIds] only grows: whatever events are delivered, every entry of
    the map is still there afterwards; the 'close' listener leaves the map
    untouched; and the record of every session the listener created for a
    socket is still in the map after that socket has closed and after
    anything that follows. *)
Theorem socketIds_only_grow `{Platform} es :
  (∀ w, socketIds w ⊆ socketIds (run es w)) ∧
  (∀ w r, socketIds (step (EvClose r) w) = socketIds w) ∧
  (∀ es0 r l,
     l ∈ closeListeners (the_socket (run es0 init) r) →
     socketIds (run (es0 ++ EvClose r :: es) init) !! session_id l.2 = Some r).
Proof.
  assert (∀ es' w, socketIds w ⊆ socketIds (run es' w)) as Hgrow.
  { intros es'. induction es' as [|e es' IH]; intros w; [done|].
    rewrite run_cons. etrans; [apply (step_socketIds e)|apply IH]. }
  split; [apply Hgrow|]. split.
  - intros w r. simpl.
    apply (dispatch_ind (λ w', socketIds w' = socketIds w)); [|done].
    by intros l w' <-.
  - intros es0 r l Hl. rewrite run_app.
    eapply lookup_weaken; [|apply Hgrow].
    by apply (lwf_registered _ (listener_wf_run es0 init listener_wf_init)).
Qed.

(** ** The theorems at concrete inputs *)

(** C3 as stated fails: [send] has been rejected by its timer, nothing has
    been written, and the pong that arrives afterwards still makes the code
    write the payload. *)
Lemma late_pong_writes_after_timeout :
  promise_of (run (timed_out_send (H:=demo) "m") init) 0 = Some (Rejected ping_error) ∧
  sends (trace (run (timed_out_send (H:=demo) "m") init)) = [] ∧
  sends (trace (run (timed_out_send (H:=demo) "m" ++ [EvPong 0]) init)) = [(0, "{m}", 0)].
Proof. vm_compute. done. Qed.

(** C3, amended, where the pong comes 9999 ms after the call, the write is
    still awaited when the timer fires at 10 s, and [send] is rejected. *)
Lemma timed_out_send_stays_subscribed_witness :
  readyState (the_socket (run (H:=demo) [EvReadyState 0 OPEN] init)
                (session_socket session0)) = OPEN ∧
  no_pong (H:=demo) (session_socket session0)
    [EvTick 9999; EvPong 0; EvTick 1; EvTimer 0] = false ∧
  promise_of
    (run [EvTick 9999; EvPong 0; EvTick 1; EvTimer 0]
       (send (H:=demo) session0 "m" (run [EvReadyState 0 OPEN] init)).1)
    (send (H:=demo) session0 "m" (run [EvReadyState 0 OPEN] init)).2 =
    Some (Rejected ping_error) ∧
  subscribed (send (H:=demo) session0 "m" (run [EvReadyState 0 OPEN] init)).2
    (run [EvTick 9999; EvPong 0; EvTick 1; EvTimer 0]
       (send (H:=demo) session0 "m" (run [EvReadyState 0 OPEN] init)).1)
    (session_socket session0) = [] ∧
  sends_of (send (H:=demo) session0 "m" (run [EvReadyState 0 OPEN] init)).2
    (run [EvTick 9999; EvPong 0; EvTick 1; EvTimer 0]
       (send (H:=demo) session0 "m" (run [EvReadyState 0 OPEN] init)).1) =
    [(session_socket session0, JSON_stringify (Platform:=demo) "m",
      (send (H:=demo) session0 "m" (run [EvReadyState 0 OPEN] init)).2)].
Proof.
  assert (H1 : readyState (the_socket (run (H:=demo) [EvReadyState 0 OPEN] init)
                (session_socket session0)) = OPEN) by (vm_compute; reflexivity).
  assert (H2 : no_pong (H:=demo) (session_socket session0)
      [EvTick 9999; EvPong 0; EvTick 1; EvTimer 0] = false)
    by (vm_compute; reflexivity).
  assert (H3 : promise_of
      (run [EvTick 9999; EvPong 0; EvTick 1; EvTimer 0]
         (send (H:=demo) session0 "m" (run [EvReadyState 0 OPEN] init)).1)
      (send (H:=demo) session0 "m" (run [EvReadyState 0 OPEN] init)).2 =
      Some (Rejected ping_error)) by (vm_compute; reflexivity).
  split; [exact H1|]. split; [exact H2|]. split; [exact H3|].
  exact (proj1 (proj2 (timed_out_send_stays_subscribed (H:=demo)
    [EvReadyState 0 OPEN] session0 "m"
    [EvTick 9999; EvPong 0; EvTick 1; EvTimer 0] H1 H3)) H2).
Defined.

(** C5 as stated fails: the error a timed-out [send] is rejected with is the
    error thrown when the write fails, not a different one. *)
Lemma timeout_error_is_the_write_error :
  promise_of (run (timed_out_send (H:=demo) "m") init) 0 = Some (Rejected write_error) ∧
  last (trace (run (acked_send (H:=demo) "m" ++ [EvSent 0 (Some "EPIPE")]) init)) =
    Some (Uncaught write_error).
Proof. vm_compute. done. Qed.

(** C5, amended, where socket 0 is open, [send] is called and 10 s pass
    without a pong. *)
Lemma send_times_out_without_write_witness :
  readyState (the_socket (run (H:=demo) [EvReadyState 0 OPEN] init) 0) = OPEN ∧
  no_pong (H:=demo) 0 [EvTick 10000] = true ∧
  (now (run (H:=demo) [EvReadyState 0 OPEN] init) + delay_ms ≤
   now (run [EvTick 10000]
          (send (H:=demo) session0 "m" (run [EvReadyState 0 OPEN] init)).1))%N ∧
  promise_of
    (run ([EvTick 10000] ++
          [EvTimer (nextTimer (run (H:=demo) [EvReadyState 0 OPEN] init))])
       (send (H:=demo) session0 "m" (run [EvReadyState 0 OPEN] init)).1)
    (send (H:=demo) session0 "m" (run [EvReadyState 0 OPEN] init)).2 =
    Some (Rejected ping_error).
Proof.
  assert (H1 : readyState (the_socket (run (H:=demo) [EvReadyState 0 OPEN] init) 0) = OPEN)
    by (vm_compute; reflexivity).
  assert (H2 : no_pong (H:=demo) 0 [EvTick 10000] = true)
    by (vm_compute; reflexivity).
  assert (H3 : (now (run (H:=demo) [EvReadyState 0 OPEN] init) + delay_ms ≤
     now (run [EvTick 10000]
            (send (H:=demo) session0 "m" (run [EvReadyState 0 OPEN] init)).1))%N)
    by (vm_compute; discriminate).
  split; [exact H1|]. split; [exact H2|]. split; [exact H3|].
  exact (proj1 (send_times_out_without_write (H:=demo) [EvReadyState 0 OPEN]
    session0 "m" [EvTick 10000] H1 H2 H3)).
Defined.

(** C4 on a socket that has closed. *)
Lemma send_on_closed_fails_immediately_witness :
  readyState (the_socket (run (H:=demo) [EvReadyState 0 OPEN; EvClose 0] init) 0) ≠ OPEN ∧
  promise_of
    (send (H:=demo) session0 "m" (run [EvReadyState 0 OPEN; EvClose 0] init)).1
    (send (H:=demo) session0 "m" (run [EvReadyState 0 OPEN; EvClose 0] init)).2 =
    Some (Rejected closed_error).
Proof.
  assert (H1 : readyState (the_socket
      (run (H:=demo) [EvReadyState 0 OPEN; EvClose 0] init) 0) ≠ OPEN)
    by (vm_compute; discriminate).
  split; [exact H1|].
  exact (proj1 (send_on_closed_fails_immediately (H:=demo) session0 "m"
    (run [EvReadyState 0 OPEN; EvClose 0] init) H1)).
Defined.

(** C6 where the pong arrives after half a second, the write completes and
    a second pong follows. *)
Lemma send_writes_payload_once_witness :
  readyState (the_socket (run (H:=demo) [EvReadyState 0 OPEN] init) 0) = OPEN ∧
  no_pong (H:=demo) 0 [EvTick 500] = true ∧
  sends_of (send (H:=demo) session0 "m" (run [EvReadyState 0 OPEN] init)).2
    (run ([EvTick 500] ++ EvPong 0 :: [EvSent 0 None; EvPong 0])
       (send (H:=demo) session0 "m" (run [EvReadyState 0 OPEN] init)).1) =
    [(0, JSON_stringify (Platform:=demo) "m",
      (send (H:=demo) session0 "m" (run [EvReadyState 0 OPEN] init)).2)].
Proof.
  assert (H1 : readyState (the_socket (run (H:=demo) [EvReadyState 0 OPEN] init) 0) = OPEN)
    by (vm_compute; reflexivity).
  assert (H2 : no_pong (H:=demo) 0 [EvTick 500] = true)
    by (vm_compute; reflexivity).
  split; [exact H1|]. split; [exact H2|].
  exact (proj2 (send_writes_payload_once (H:=demo) [EvReadyState 0 OPEN]
    session0 "m" [EvTick 500] [EvSent 0 None; EvPong 0] H1 H2)).
Defined.

(** C7 as stated fails: after the 'close' event the entry of the session is
    still in [socketIds]. *)
Lemma close_keeps_the_socketIds_entry :
  socketIds (run accepted init) !! "a" = Some 0 ∧
  closeListeners (the_socket (run accepted init) 0) = [(agent0, session0)] ∧
  socketIds (run (accepted ++ [EvClose 0]) init) !! "a" = Some 0.
Proof. vm_compute. done. Qed.

(** C7, amended, where the transport has accepted socket 0. *)
Lemma close_notifies_registry_once_witness :
  (agent0, session0) ∈ closeListeners (the_socket (run accepted init) 0) ∧
  removed session0 (trace (step (EvClose 0) (run accepted init))) =
    removed session0 (trace (run accepted init)) ++ [session0].
Proof.
  assert (H1 : (agent0, session0) ∈ closeListeners (the_socket (run accepted init) 0))
    by (vm_compute; left).
  split; [exact H1|].
  exact (proj2 (proj2 (close_notifies_registry_once (H:=demo) accepted 0
    agent0 session0 H1))).
Defined.

(** C2 where the write fails with EPIPE. *)
Lemma write_error_is_not_reported_witness :
  no_timer (H:=demo) 0 [EvTick 3000; EvPong 0] = true ∧
  promise_of
    (run [EvTick 3000; EvPong 0]
       (run (acked_send (H:=demo) "m" ++ [EvSent 0 (Some "EPIPE")]) init)) 0 =
    Some Pending.
Proof.
  assert (H1 : no_timer (H:=demo) 0 [EvTick 3000; EvPong 0] = true)
    by (vm_compute; reflexivity).
  split; [exact H1|].
  exact (proj1 (proj2 (write_error_is_not_reported (H:=demo) "m" "EPIPE"
    [EvTick 3000; EvPong 0] H1))).
Defined.

(** * Further properties *)

(** ** The calls of [send] *)

Lemma now_step `{Platform} e w : (now w ≤ now (step e w))%N.
Proof.
  destruct e; simpl.
  - unfold start. simpl. lia.
  - apply (dispatch_ind (λ w', (now w ≤ now w')%N)); [|lia].
    intros a w' Hw'. unfold on_connection, next_uuid. simpl.
    by destruct (has_socketId _ _).
  - lia.
  - apply (dispatch_ind (λ w', (now w ≤ now w')%N)); [|lia].
    intros a w' Hw'. unfold on_message. by destruct (JSON_parse _).
  - case_decide; [|lia]. destruct error; simpl; lia.
  - apply (dispatch_ind (λ w', (now w ≤ now w')%N)); [|simpl; lia].
    by intros a w' Hw'.
  - apply (dispatch_ind (λ w', (now w ≤ now w')%N)); [|simpl; lia].
    by intros a w' Hw'.
  - destruct (writeCallbacks w !! wid); [|lia]. destruct error; simpl; [lia|].
    unfold clearTimeout. destruct (_ ≫= _); simpl; lia.
  - lia.
  - destruct (timers w !! tid); [|lia]. case_decide; [|lia].
    unfold resume. simpl. destruct (calls w !! _); [|simpl; lia].
    destruct (success _); simpl; lia.
  - unfold send. case_decide; simpl; lia.
  - unfold close, socket_close. case_decide; simpl; lia.
Qed.

Lemma sends_of_grows `{Platform} k e w :
  sends_of k w ≠ [] → sends_of k (step e w) ≠ [].
Proof.
  rewrite sends_of_step. intros Hne Heq.
  apply app_eq_nil in Heq as [? _]. done.
Qed.

Lemma calls_wf_init `{Platform} : calls_wf init.
Proof.
  split; simpl; intros *; try (rewrite lookup_empty; done); done.
Qed.

Lemma calls_wf_quiet `{Platform} e w :
  quiet e → calls_wf w → calls_wf (step e w).
Proof.
  intros Hq [Hwa Hre Hdu Hwr Hsu Hun].
  pose proof (now_step e w) as Hnow.
  destruct (quiet_frame e w Hq) as [Ec Et _ Ew Ep Es].
  assert (∀ k, sends_of k (step e w) = sends_of k w) as Eso.
  { intros k. unfold sends_of. by rewrite Es. }
  assert (∀ k r, subscribed k (step e w) r = subscribed k w r) as Esu.
  { intros k r. unfold subscribed. by rewrite Ep. }
  split; rewrite ?Ec, ?Et, ?Ew.
  - done.
  - done.
  - intros tid t Ht. specialize (Hdu _ _ Ht). lia.
  - intros wid k Hk. rewrite Eso. eauto.
  - intros k c Hc Hs. rewrite Eso. eauto.
  - intros k c Hc Hid. destruct (Hun _ _ Hc Hid) as (? & ? & ? & ?).
    rewrite Eso. repeat split; try done. intros r. by rewrite Esu.
Qed.

Lemma calls_wf_pong `{Platform} r w :
  wf w → calls_wf w → calls_wf (step (EvPong r) w).
Proof.
  intros Hwf [Hwa Hre Hdu Hwr Hsu Hun].
  pose proof (now_step (EvPong r) w) as Hnow.
  destruct (step_pong_spec r w) as (Ec & Et & _ & _ & _ & Ew).
  split; rewrite ?Ec, ?Et.
  - done.
  - done.
  - intros tid t Ht. specialize (Hdu _ _ Ht). lia.
  - intros wid k Hk. destruct (Ew _ _ Hk) as [Hold|(l & Hl & Hlk)].
    + by apply sends_of_grows, (Hwr wid).
    + rewrite sends_of_step. intros Heq. apply app_eq_nil in Heq as [_ Heq].
      apply fmap_nil_inv in Heq.
      assert (l ∈ subscribed k w r) as Hin by by apply list_elem_of_filter.
      rewrite Heq in Hin. by apply elem_of_nil in Hin.
  - intros k c Hc Hs. destruct (Hsu _ _ Hc Hs). split; [|done].
    by apply sends_of_grows.
  - intros k c Hc Hid. destruct (Hun _ _ Hc Hid) as (? & ? & Hso & Hsb).
    split; [done|]. split; [done|]. split.
    + by rewrite sends_of_step, Hso, Hsb.
    + intros r'. rewrite subscribed_step; [|done|by eapply lookup_lt_Some].
      by case_decide.
Qed.

Lemma clearTimeout_eq `{Platform} t w :
  clearTimeout t w =
  set_timers (match t with
              | Some tid => delete tid (timers w)
              | None => timers w
              end) w.
Proof. destruct t; [done|]. by destruct w. Qed.

Lemma calls_wf_sent `{Platform} wid error w :
  wf w → calls_wf w → calls_wf (step (EvSent wid error) w).
Proof.
  intros Hwf [Hwa Hre Hdu Hwr Hsu Hun]. simpl.
  destruct (writeCallbacks w !! wid) as [k'|] eqn:Ek'; [|by split].
  destruct error as [e|]; simpl.
  - split; simpl; try done.
    + intros wid' k [_ Hk]%lookup_delete_Some.
      unfold sends_of. simpl. rewrite !sends_app. simpl. rewrite !app_nil_r.
      by eapply Hwr.
    + intros k c Hc Hs. unfold sends_of. simpl. rewrite !sends_app. simpl.
      rewrite !app_nil_r. by eapply Hsu.
    + intros k c Hc Hid. destruct (Hun _ _ Hc Hid) as (? & ? & ? & ?).
      unfold sends_of. simpl. rewrite !sends_app. simpl. rewrite !app_nil_r.
      by repeat split.
  - assert (∀ c, calls w !! k' = Some c → is_Some (timeoutId c)) as Hprobed.
    { intros c Hc. destruct (timeoutId c) eqn:Hid; [done|].
      destruct (Hun _ _ Hc Hid) as (_ & _ & Hso & _). by destruct (Hwr _ _ Ek'). }
    assert (alter (set_success true) k' (calls w) !! k'
              ≫= (λ c : SendCall, timeoutId c) =
            calls w !! k' ≫= timeoutId) as Eid.
    { rewrite list_lookup_alter_eq. by destruct (calls w !! k'). }
    rewrite clearTimeout_eq. simpl. rewrite Eid.
    set (tm' := match calls w !! k' ≫= timeoutId with
                | Some tid => delete tid (timers w) | None => timers w end).
    assert (∀ tid t, tm' !! tid = Some t →
              timers w !! tid = Some t ∧ calls w !! k' ≫= timeoutId ≠ Some tid) as Htm.
    { intros tid t. unfold tm'. destruct (calls w !! k') as [c|]; simpl; [|done].
      destruct (timeoutId c) as [tid'|]; simpl; [|done].
      intros [? ?]%lookup_delete_Some. split; congruence. }
    assert (∀ tid t, calls w !! k' ≫= timeoutId ≠ Some tid →
              timers w !! tid = Some t → tm' !! tid = Some t) as Htm'.
    { intros tid t Hne Ht. unfold tm'.
      destruct (calls w !! k' ≫= timeoutId) as [tid'|]; [|done].
      rewrite lookup_delete_ne; [done|congruence]. }
    split; simpl.
    + intros k c' Hc' Hp Hs.
      apply lookup_alter_call in Hc' as (c & Hc & [[-> ->]|[Hne ->]]); [done|].
      destruct (Hwa _ _ Hc Hp Hs) as (tid & t & Hid & Ht & Hres).
      exists tid, t. split; [done|]. split; [|done].
      apply Htm'; [|done]. destruct (calls w !! k') as [c0|] eqn:Hc0; [|done].
      simpl. intros Hid'. apply Hne. by eapply (wf_timeoutId_inj _ Hwf k k').
    + intros k c' e Hc' Hp.
      apply lookup_alter_call in Hc' as (c & Hc & [[-> ->]|[Hne ->]]);
        simpl in *; by eapply Hre.
    + intros tid t [Ht _]%Htm. eauto.
    + intros wid' k [_ Hk]%lookup_delete_Some.
      unfold sends_of. simpl. rewrite sends_app. simpl. rewrite app_nil_r.
      by eapply Hwr.
    + intros k c' Hc' Hs.
      assert (sends_of k w ≠ [] ∧ is_Some (timeoutId c')) as [Hso Hid].
      { apply lookup_alter_call in Hc' as (c & Hc & [[-> ->]|[Hne ->]]).
        - split; [by eapply Hwr|]. simpl. by apply Hprobed.
        - by eapply Hsu. }
      split; [|done]. unfold sends_of in *. simpl.
      by rewrite sends_app, app_nil_r.
    + intros k c' Hc' Hid.
      apply lookup_alter_call in Hc' as (c & Hc & [[-> ->]|[Hne ->]]).
      { simpl in Hid. destruct (Hprobed _ Hc) as [? Hsome]. congruence. }
      destruct (Hun _ _ Hc Hid) as (? & ? & Hso & Hsb).
      split; [done|]. split; [done|]. split; [|done].
      unfold sends_of in *. simpl. by rewrite sends_app, app_nil_r.
Qed.

Lemma calls_wf_timer `{Platform} tid w :
  wf w → calls_wf w → calls_wf (step (EvTimer tid) w).
Proof.
  intros Hwf [Hwa Hre Hdu Hwr Hsu Hun]. simpl.
  destruct (timers w !! tid) as [t|] eqn:Et; [|by split].
  case_decide as Hdue; [|by split].
  destruct (wf_timer _ Hwf _ _ Et) as (c0 & Hc0 & Hid0 & Hs0 & Hp0).
  unfold resume. simpl. rewrite Hc0, Hs0.
  split; simpl.
  - intros k c' Hc' Hp Hs.
    apply lookup_alter_call in Hc' as (c & Hc & [[-> ->]|[Hne ->]]); [done|].
    destruct (Hwa _ _ Hc Hp Hs) as (tid1 & t1 & Hid & Ht & Hres).
    exists tid1, t1. split; [done|]. split; [|done].
    rewrite lookup_delete_ne; [done|]. intros <-. congruence.
  - intros k c' e Hc' Hp.
    apply lookup_alter_call in Hc' as (c & Hc & [[-> ->]|[Hne ->]]).
    + simpl in *. right. split; [congruence|]. assert (c = c0) as -> by congruence.
      by rewrite Hid0.
    + by eapply Hre.
  - intros tid' t' [_ Ht']%lookup_delete_Some. eauto.
  - intros wid k Hk. unfold sends_of. simpl. rewrite sends_app. simpl.
    rewrite app_nil_r. by eapply Hwr.
  - intros k c' Hc' Hs.
    assert (sends_of k w ≠ [] ∧ is_Some (timeoutId c')) as [Hso Hid].
    { apply lookup_alter_call in Hc' as (c & Hc & [[-> ->]|[Hne ->]]);
        simpl in *; by eapply Hsu. }
    split; [|done]. unfold sends_of in *. simpl. by rewrite sends_app, app_nil_r.
  - intros k c' Hc' Hid.
    apply lookup_alter_call in Hc' as (c & Hc & [[-> ->]|[Hne ->]]).
    { simpl in Hid. congruence. }
    destruct (Hun _ _ Hc Hid) as (? & ? & Hso & Hsb).
    split; [done|]. split; [done|]. split; [|done].
    unfold sends_of in *. simpl. by rewrite sends_app, app_nil_r.
Qed.

Lemma calls_wf_send `{Platform} this msg w :
  wf w → calls_wf w → calls_wf (step (EvSend this msg) w).
Proof.
  intros Hwf [Hwa Hre Hdu Hwr Hsu Hun].
  assert (∀ k, sends_of k (step (EvSend this msg) w) = sends_of k w) as Eso.
  { intros k. by rewrite sends_of_step, app_nil_r. }
  assert (∀ k r, k < length (calls w) →
            subscribed k (step (EvSend this msg) w) r = subscribed k w r) as Esu.
  { intros k r Hk. by rewrite subscribed_step. }
  revert Eso Esu. simpl. unfold send. case_decide as Hopen; simpl; intros Eso Esu.
  - unfold upd_call. simpl. rewrite alter_snoc. simpl.
    revert Eso Esu. unfold upd_call. simpl. rewrite alter_snoc. simpl.
    intros Eso Esu.
    split; simpl.
    + intros k c [[_ Hc]|[-> <-]]%lookup_snoc_Some Hp Hs.
      * destruct (Hwa _ _ Hc Hp Hs) as (tid & t & Hid & Ht & Hres).
        exists tid, t. split; [done|]. split; [|done].
        rewrite lookup_insert_ne; [done|].
        pose proof (wf_timeoutId _ Hwf _ _ _ Hc Hid). lia.
      * eexists _, _. split; [done|]. split; [apply lookup_insert_eq|done].
    + intros k c e [[_ Hc]|[-> <-]]%lookup_snoc_Some Hp; [|done]. by eapply Hre.
    + intros tid t [[<- <-]|[_ Ht]]%lookup_insert_Some; simpl; [lia|eauto].
    + intros wid k Hk. rewrite Eso. by eapply Hwr.
    + intros k c [[_ Hc]|[-> <-]]%lookup_snoc_Some Hs; [|done].
      rewrite Eso. by eapply Hsu.
    + intros k c [[Hk Hc]|[-> <-]]%lookup_snoc_Some Hid; [|done].
      destruct (Hun _ _ Hc Hid) as (? & ? & Hso & Hsb).
      rewrite Eso. split; [done|]. split; [done|]. split; [done|].
      intros r. by rewrite Esu.
  - split; simpl.
    + intros k c [[_ Hc]|[-> <-]]%lookup_snoc_Some Hp Hs; [|done]. eauto.
    + intros k c e [[_ Hc]|[-> <-]]%lookup_snoc_Some Hp; [by eapply Hre|].
      simpl in Hp. left. split; [congruence|done].
    + done.
    + intros wid k Hk. rewrite Eso. by eapply Hwr.
    + intros k c [[_ Hc]|[-> <-]]%lookup_snoc_Some Hs; [|done].
      rewrite Eso. by eapply Hsu.
    + intros k c [[Hk Hc]|[-> <-]]%lookup_snoc_Some Hid.
      * destruct (Hun _ _ Hc Hid) as (? & ? & Hso & Hsb).
        rewrite Eso. split; [done|]. split; [done|]. split; [done|].
        intros r. by rewrite Esu.
      * rewrite Eso. split; [done|]. split; [done|].
        split; [by apply sends_of_fresh|]. intros r.
        change (subscribed (length (calls w)) w r = []). by apply subscribed_fresh.
Qed.

Lemma calls_wf_step `{Platform} e w : wf w → calls_wf w → calls_wf (step e w).
Proof.
  intros Hwf Hcw. destruct (quiet e) eqn:Hq.
  - apply calls_wf_quiet; [by rewrite Hq|done].
  - destruct e; try done.
    + by apply calls_wf_pong.
    + by apply calls_wf_sent.
    + by apply calls_wf_timer.
    + by apply calls_wf_send.
Qed.

Lemma calls_wf_run `{Platform} es w : wf w → calls_wf w → calls_wf (run es w).
Proof.
  revert w. induction es as [|e es IH]; intros w Hwf Hcw; [done|].
  rewrite run_cons. apply IH; [by apply wf_step|by apply calls_wf_step].
Qed.

Lemma calls_wf_reachable `{Platform} es : wf (run es init) ∧ calls_wf (run es init).
Proof.
  split; [apply wf_run, wf_init|apply calls_wf_run; [apply wf_init|apply calls_wf_init]].
Qed.

(** X1: the pending timers are exactly the sends that still wait.  In every
    reachable world each pending timer belongs to a call of [send] whose
    promise is pending and whose write has not succeeded, and is due within
    10 s; each such call has its timer pending; and no two timers belong to
    the same call. *)
Theorem pending_timers_are_the_waiting_sends `{Platform} es :
  let w := run es init in
  (∀ tid t, timers w !! tid = Some t →
     ∃ c, calls w !! resumes t = Some c ∧ timeoutId c = Some tid ∧
          promise c = Pending ∧ success c = false ∧
          (due t ≤ now w + delay_ms)%N) ∧
  (∀ k c, calls w !! k = Some c → promise c = Pending → success c = false →
     ∃ tid t, timeoutId c = Some tid ∧ timers w !! tid = Some t ∧ resumes t = k) ∧
  (∀ tid1 tid2 t1 t2,
     timers w !! tid1 = Some t1 → timers w !! tid2 = Some t2 →
     resumes t1 = resumes t2 → tid1 = tid2).
Proof.
  intros w. destruct (calls_wf_reachable es) as [Hwf Hcw]. fold w in Hwf, Hcw.
  split; [|split].
  - intros tid t Ht. destruct (wf_timer _ Hwf _ _ Ht) as (c & Hc & Hid & Hs & Hp).
    exists c. repeat split; try done. by eapply cw_due.
  - apply (cw_waiting _ Hcw).
  - intros tid1 tid2 t1 t2 Ht1 Ht2 Hres.
    destruct (wf_timer _ Hwf _ _ Ht1) as (c1 & Hc1 & Hid1 & _).
    destruct (wf_timer _ Hwf _ _ Ht2) as (c2 & Hc2 & Hid2 & _).
    rewrite Hres in Hc1. congruence.
Qed.

(** X2: a send that still waits is rejected by its timer.  In every reachable
    world, for a call of [send] whose promise is pending and whose write has
    not succeeded, once 10 s have passed the event loop's turn for the timer
    of the call rejects it with 'WebSocket send message failed.'. *)
Theorem waiting_send_is_rejected_by_its_timer `{Platform} es k c :
  let w := run es init in
  calls w !! k = Some c → promise c = Pending → success c = false →
  ∃ tid, timeoutId c = Some tid ∧
         promise_of (run [EvTick delay_ms; EvTimer tid] w) k =
           Some (Rejected ping_error).
Proof.
  intros w Hc Hp Hs. destruct (calls_wf_reachable es) as [Hwf Hcw].
  fold w in Hwf, Hcw.
  destruct (cw_waiting _ Hcw _ _ Hc Hp Hs) as (tid & t & Hid & Ht & Hres).
  exists tid. split; [done|].
  pose proof (cw_due _ Hcw _ _ Ht) as Hdue.
  assert (wf (step (EvTick delay_ms) w)) as Hwf' by by apply wf_step.
  destruct (timer_fires tid t (step (EvTick delay_ms) w) Hwf' Ht) as (_ & Hprom).
  { simpl. lia. }
  rewrite Hres in Hprom. exact Hprom.
Qed.

(** X3: the caller of [send] sees two errors only.  In every reachable world
    a rejected [send] was rejected either with 'WebSocket transport session
    has been closed.', and then the call has registered no listener and no
    payload has been written for it, or with 'WebSocket send message
    failed.'. *)
Theorem send_is_rejected_in_two_ways `{Platform} es k e :
  let w := run es init in
  promise_of w k = Some (Rejected e) →
  (e = closed_error ∧ sends_of k w = [] ∧ ∀ r, subscribed k w r = []) ∨
  e = ping_error.
Proof.
  intros w Hp. destruct (calls_wf_reachable es) as [Hwf Hcw]. fold w in Hwf, Hcw.
  unfold promise_of in Hp. destruct (calls w !! k) as [c|] eqn:Hc; [|done].
  simpl in Hp. injection Hp as Hp.
  destruct (cw_rejected _ Hcw _ _ _ Hc Hp) as [[-> Hid]|[-> _]]; [left|by right].
  destruct (cw_unprobed _ Hcw _ _ Hc Hid) as (_ & _ & ? & ?). done.
Qed.

(** X4: a rejection is final.  Once the promise of a call of [send] is
    rejected it stays rejected with the same error under every later event: a
    pong or a completed write that comes late does not change what the caller
    was told. *)
Theorem rejection_is_final `{Platform} es0 es k e :
  promise_of (run es0 init) k = Some (Rejected e) →
  promise_of (run (es0 ++ es) init) k = Some (Rejected e).
Proof.
  intros Hp. rewrite run_app. apply settled_run; [apply wf_run, wf_init|done|done].
Qed.

(** X5: the write is reported as a success only for a payload that was handed
    to the socket.  In every reachable world a call of [send] whose [success]
    flag is set has had its payload passed to [socket.send], and a write whose
    callback is still awaited has been passed too. *)
Theorem success_means_written `{Platform} es :
  let w := run es init in
  (∀ k c, calls w !! k = Some c → success c = true → sends_of k w ≠ []) ∧
  (∀ wid k, writeCallbacks w !! wid = Some k → sends_of k w ≠ []).
Proof.
  intros w. destruct (calls_wf_reachable es) as [Hwf Hcw]. fold w in Hwf, Hcw.
  split.
  - intros k c Hc Hs. by destruct (cw_success _ Hcw _ _ Hc Hs).
  - apply (cw_written _ Hcw).
Qed.

(** ** [send] and the connection *)

Lemma connection_frame_refl `{Platform} w : connection_frame w w.
Proof. by split. Qed.

Lemma connection_frame_trans `{Platform} w1 w2 w3 :
  connection_frame w1 w2 → connection_frame w2 w3 → connection_frame w1 w3.
Proof. intros [] []. split; intros; etrans; eauto. Qed.

Lemma connection_frame_same `{Platform} w w' a :
  sockets w' = sockets w → socketIds w' = socketIds w →
  connectionListeners w' = connectionListeners w →
  (trace w' = trace w ∨ trace w' = trace w ++ [a]) →
  match a with SocketClose _ | RemoveSession _ _ => False | _ => True end →
  connection_frame w w'.
Proof.
  intros Hs Hi Hc Ht Ha.
  assert (closes (trace w') = closes (trace w) ∧
          removals (trace w') = removals (trace w)) as [? ?].
  { destruct Ht as [->| ->]; [done|]. unfold closes, removals.
    rewrite !omap_app. simpl. destruct a; try done; by rewrite !app_nil_r. }
  split; try done; intros r; unfold the_socket; by rewrite Hs.
Qed.

Lemma connection_frame_pongOnce `{Platform} r l w :
  connection_frame w (upd_socket r (set_pongOnce l) w).
Proof.
  split; try done; intros r'; rewrite the_socket_upd; by case_decide; subst.
Qed.

Lemma connection_frame_step `{Platform} e w :
  send_path e → connection_frame w (step e w).
Proof.
  destruct e; try (intros []; fail); intros _; simpl.
  - apply (dispatch_ind (connection_frame w)).
    + intros l w' Hw'. eapply connection_frame_trans; [exact Hw'|].
      unfold on_pong, socket_send. simpl.
      by eapply (connection_frame_same _ _ (SocketSend _ _ _)); [..|right|].
    + apply connection_frame_pongOnce.
  - destruct (writeCallbacks w !! wid); [|apply connection_frame_refl].
    destruct error as [e|]; simpl.
    + apply (connection_frame_trans _
        (emit (Log LvlError ("Error sending message: " ++ e) None)
           (set_writeCallbacks (delete wid (writeCallbacks w)) w))).
      * by eapply (connection_frame_same _ _ (Log _ _ _)); [..|right|].
      * by eapply (connection_frame_same _ _ (Uncaught _)); [..|right|].
    + rewrite clearTimeout_eq.
      by eapply (connection_frame_same _ _ (Log _ _ _)); [..|right|].
  - by eapply (connection_frame_same _ _ (Log LvlDebug "" None)); [..|left|].
  - destruct (timers w !! tid); [|apply connection_frame_refl].
    case_decide; [|apply connection_frame_refl].
    unfold resume. simpl. destruct (calls w !! _).
    + destruct (success _).
      * by eapply (connection_frame_same _ _ (Log LvlDebug "" None)); [..|left|].
      * by eapply (connection_frame_same _ _ (Log _ _ _)); [..|right|].
    + by eapply (connection_frame_same _ _ (Log LvlDebug "" None)); [..|left|].
  - unfold send. case_decide; simpl.
    + apply (connection_frame_trans _
        (upd_socket (session_socket session)
           (set_pongOnce (pongOnce (the_socket w (session_socket session)) ++
              [{| pl_this := session; pl_message := encryptedMessage;
                  pl_call := length (calls w) |}])) w)).
      * apply connection_frame_pongOnce.
      * by eapply (connection_frame_same _ _ (SocketPing _ _)); [..|right|].
    + by eapply (connection_frame_same _ _ (Log LvlDebug "" None)); [..|left|].
Qed.

(** X6: [send] never closes a connection and never deregisters a session.
    Under events that only run code of [send] (calls of [send], pongs, write
    callbacks, timers, the passing of time), whatever the outcome of the
    sends, every socket keeps its [readyState] and its 'message' and 'close'
    listeners, [socket.close()] and [removeSession] are not called, and the
    transport's map of ids and its 'connection' listeners are unchanged. *)
Theorem send_leaves_the_connection_alone `{Platform} es w :
  forallb send_path es = true → connection_frame w (run es w).
Proof.
  revert w. induction es as [|e es IH]; intros w Hes; [apply connection_frame_refl|].
  simpl in Hes. apply andb_true_iff in Hes as [He Hes].
  rewrite run_cons. eapply connection_frame_trans; [|by apply IH].
  apply connection_frame_step. by rewrite He.
Qed.

(** X7: one pong answers every send that waits on the socket.  When [send]
    is called twice on an open socket before a pong arrives, the first pong
    hands both payloads to [socket.send], in the order of the calls and after
    those of the sends that were already waiting, and leaves no "pong"
    listener on the socket: the pong of the second ping then finds nothing to
    do. *)
Theorem one_pong_answers_concurrent_sends `{Platform} this m1 m2 w :
  let r := session_socket this in
  readyState (the_socket w r) = OPEN →
  let w1 := (send this m1 w).1 in
  let w2 := (send this m2 w1).1 in
  let w3 := step (EvPong r) w2 in
  (send this m1 w).2 = length (calls w) ∧
  (send this m2 w1).2 = S (length (calls w)) ∧
  sends (trace w3) =
    sends (trace w) ++ map pong_send (pongOnce (the_socket w r)) ++
    [(r, JSON_stringify m1, length (calls w));
     (r, JSON_stringify m2, S (length (calls w)))] ∧
  pongOnce (the_socket w3 r) = [] ∧
  sends (trace (step (EvPong r) w3)) = sends (trace w3).
Proof.
  intros r Hopen w1 w2 w3.
  assert (Hs1 : w1 = step (EvSend this m1) w) by done.
  assert (Hs2 : w2 = step (EvSend this m2) w1) by done.
  assert (readyState (the_socket w1 r) = OPEN) as Hopen1.
  { rewrite Hs1, (cf_readyState _ _ (connection_frame_step (EvSend this m1) w I)).
    done. }
  assert (length (calls w1) = S (length (calls w))) as Hlen.
  { unfold w1, send. rewrite decide_True by done. simpl.
    unfold upd_call. simpl. rewrite length_alter, length_app. simpl. lia. }
  assert (pongOnce (the_socket w2 r) =
          pongOnce (the_socket w r) ++
          [{| pl_this := this; pl_message := m1; pl_call := length (calls w) |};
           {| pl_this := this; pl_message := m2; pl_call := S (length (calls w)) |}])
    as Hpo.
  { rewrite Hs2, pongOnce_step, !decide_True by done. rewrite Hlen.
    rewrite Hs1, pongOnce_step, !decide_True by done.
    by rewrite <- app_assoc. }
  assert (sends (trace w2) = sends (trace w)) as Hsd.
  { rewrite Hs2, sends_quiet_call by done. rewrite Hs1. by apply sends_quiet_call. }
  destruct (step_pong_spec r w2) as (_ & _ & _ & Hpo3 & Hsd3 & _). fold w3 in Hpo3, Hsd3.
  destruct (step_pong_spec r w3) as (_ & _ & _ & _ & Hsd4 & _).
  specialize (Hpo3 r). rewrite decide_True in Hpo3 by done.
  split. { unfold send. by case_decide. }
  split. { unfold send. rewrite decide_True by done. simpl. done. }
  split. { rewrite Hsd3, Hsd, Hpo, map_app. done. }
  split; [done|]. rewrite Hsd4, Hpo3. simpl. by rewrite app_nil_r.
Qed.

(** X8: after [close()], and after the socket has emitted 'close', [send]
    fails.  Whatever the world, a [send] that follows [close()] on the same
    session, or the 'close' event of its socket, returns a promise rejected
    with 'WebSocket transport session has been closed.' and does nothing
    else: the trace is what it was before the call. *)
Theorem send_after_close_is_rejected `{Platform} this msg w :
  let r := session_socket this in
  let rejected (w1 : World) :=
    promise_of (send this msg w1).1 (send this msg w1).2 =
      Some (Rejected closed_error) ∧
    trace (send this msg w1).1 = trace w1 in
  rejected (close this w).1 ∧ rejected (step (EvClose r) w).
Proof.
  intros r rejected.
  assert (∀ w1, readyState (the_socket w1 r) ≠ OPEN → rejected w1) as Hrej.
  { intros w1 Hst. unfold rejected, send. rewrite decide_False by done. simpl.
    split; [|done]. unfold promise_of. simpl. by rewrite list_lookup_middle. }
  split; apply Hrej.
  - destruct (decide (readyState (the_socket w r) = OPEN)) as [Hopen|Hclosed].
    + rewrite (close_open this w Hopen). simpl.
      unfold socket_close, the_socket. simpl. by rewrite lookup_insert_eq.
    + by rewrite (close_not_open this w Hclosed).
  - simpl.
    apply (dispatch_ind (λ w', readyState (the_socket w' r) ≠ OPEN)).
    + by intros l w' Hw'.
    + rewrite the_socket_upd, decide_True by done. done.
Qed.

(** ** The sessions of the transport *)

Lemma messageListeners_step `{Platform} e w r :
  (∀ r', e ≠ EvConnection r') →
  messageListeners (the_socket (step e w) r) = messageListeners (the_socket w r).
Proof.
  intros Hne.
  assert (∀ w', sockets w' = sockets w →
     messageListeners (the_socket w' r) = messageListeners (the_socket w r)) as Hsame.
  { intros w' Hs. unfold the_socket. by rewrite Hs. }
  assert (∀ f w0, (∀ s, messageListeners (f s) = messageListeners s) → ∀ r0,
     messageListeners (the_socket (upd_socket r0 f w0) r) =
     messageListeners (the_socket w0 r)) as Hupd.
  { intros f w0 Hf r0. rewrite the_socket_upd. case_decide; subst; auto. }
  destruct (send_path e) eqn:Hsp.
  { apply (cf_messageListeners _ _ (connection_frame_step e w (Is_true_true_2 _ Hsp))). }
  destruct e; try done; simpl.
  - by destruct (Hne socket).
  - by apply Hupd.
  - apply (dispatch_ind (λ w', messageListeners (the_socket w' r) =
                               messageListeners (the_socket w r))); [|done].
    intros l w' <-. unfold on_message, the_socket.
    by destruct (JSON_parse _).
  - case_decide; [|done]. by destruct error.
  - apply (dispatch_ind (λ w', messageListeners (the_socket w' r) =
                               messageListeners (the_socket w r))).
    + by intros l w' <-.
    + by apply Hupd.
  - unfold close, socket_close. case_decide; [|done]. simpl.
    etrans; [|by apply (Hupd (set_readyState CLOSING) w)]. done.
Qed.

Lemma on_connection_listeners `{Platform} r a w :
  has_socketId w (uuid (uuidCalls w)) = false →
  let w' := on_connection r a w in
  let l := (a, {| session_id := uuid (uuidCalls w); session_socket := r |}) in
  uuidCalls w' = S (uuidCalls w) ∧
  socketIds w' = <[uuid (uuidCalls w) := r]> (socketIds w) ∧
  connectionListeners w' = connectionListeners w ∧
  ∀ r', messageListeners (the_socket w' r') =
          (if decide (r = r') then messageListeners (the_socket w r) ++ [l]
           else messageListeners (the_socket w r')) ∧
        closeListeners (the_socket w' r') =
          (if decide (r = r') then closeListeners (the_socket w r) ++ [l]
           else closeListeners (the_socket w r')).
Proof.
  intros E. unfold on_connection, next_uuid, listenOnWebSocketMessages. simpl.
  change (has_socketId (emit _ _) ?i) with (has_socketId w i). rewrite E.
  split; [done|]. split; [done|]. split; [done|].
  intros r'. unfold the_socket, upd_socket. simpl. rewrite !lookup_insert.
  destruct (decide (r = r')) as [<-|Hne]; simpl; [|done].
  split; unfold the_socket; simpl; by rewrite !lookup_insert_eq.
Qed.

Lemma on_connection_duplicate `{Platform} r a w :
  has_socketId w (uuid (uuidCalls w)) = true →
  let w' := on_connection r a w in
  sockets w' = sockets w ∧ socketIds w' = socketIds w ∧
  connectionListeners w' = connectionListeners w ∧
  uuidCalls w' = S (uuidCalls w) ∧
  trace w' = trace w ++
    [Log LvlDebug "Socket connected." None;
     Log LvlDebug ("Socket with id " ++ uuid (uuidCalls w) ++ " already exists.") None].
Proof.
  intros E. unfold on_connection, next_uuid. simpl.
  change (has_socketId (emit _ _) ?i) with (has_socketId w i). rewrite E. simpl.
  by rewrite <- app_assoc.
Qed.

Lemma sessions_wf_init `{Platform} : sessions_wf init.
Proof.
  split; intros r; unfold the_socket; simpl; rewrite lookup_empty; simpl; [|done].
  by intros l ?%elem_of_nil.
Qed.

Lemma sessions_wf_on_connection `{Platform} r a w :
  sessions_wf w → sessions_wf (on_connection r a w).
Proof.
  intros [Hso Hli]. destruct (has_socketId w (uuid (uuidCalls w))) eqn:E.
  - destruct (on_connection_duplicate r a w E) as (Hs & _).
    split; intros r'; unfold the_socket; rewrite Hs; [apply Hso|apply Hli].
  - destruct (on_connection_listeners r a w E) as (_ & _ & _ & Hl).
    split; intros r'; destruct (Hl r') as [Hm Hc]; rewrite ?Hm, Hc.
    + intros l. case_decide; [subst|by apply Hso].
      intros [Hl'| ->%list_elem_of_singleton]%elem_of_app; [by apply Hso|done].
    + case_decide; [subst|by apply Hli]. by rewrite Hli.
Qed.

Lemma sessions_wf_step `{Platform} e w : sessions_wf w → sessions_wf (step e w).
Proof.
  intros Hwf.
  assert ((∃ r, e = EvConnection r) ∨ (∀ r, e ≠ EvConnection r)) as [[r ->]|Hne]
    by (destruct e; eauto).
  - simpl. apply (dispatch_ind sessions_wf); [|done].
    intros a w'. apply sessions_wf_on_connection.
  - destruct Hwf as [Hso Hli].
    pose proof (listener_frame_step e w Hne) as [_ Hc].
    split; intros r; rewrite ?messageListeners_step, Hc by done; auto.
Qed.

Lemma sessions_wf_run `{Platform} es w : sessions_wf w → sessions_wf (run es w).
Proof.
  revert w. induction es as [|e es IH]; intros w Hw; [done|].
  apply IH, sessions_wf_step, Hw.
Qed.

Lemma NoDup_fmap_eq {A B} (f : A → B) (l : list A) x y :
  NoDup (f <$> l) → x ∈ l → y ∈ l → f x = f y → x = y.
Proof.
  induction l as [|z l IH]; [by intros _ ?%elem_of_nil|].
  rewrite fmap_cons, NoDup_cons. intros [Hni Hnd].
  intros [->|Hx]%elem_of_cons [->|Hy]%elem_of_cons Hf; [done| | |by apply IH].
  - destruct Hni. rewrite Hf. by apply list_elem_of_fmap_2.
  - destruct Hni. rewrite <- Hf. by apply list_elem_of_fmap_2.
Qed.

(** X9: session ids are unique.  In every reachable world, two sessions of the
    transport with the same id are the same session, created by the same
    'connection' listener for the same socket; and the socket of a session is
    the socket it listens on. *)
Theorem session_ids_are_unique `{Platform} es r r' l l' :
  let w := run es init in
  l ∈ closeListeners (the_socket w r) →
  l' ∈ closeListeners (the_socket w r') →
  session_id l.2 = session_id l'.2 →
  r = r' ∧ l = l' ∧ session_socket l.2 = r.
Proof.
  intros w Hl Hl' Hid.
  assert (listener_wf w) as [Hr Hn] by apply listener_wf_run, listener_wf_init.
  assert (sessions_wf w) as [Hso _] by apply sessions_wf_run, sessions_wf_init.
  assert (r = r') as <-.
  { pose proof (Hr _ _ Hl) as H1. pose proof (Hr _ _ Hl') as H2.
    rewrite Hid in H1. congruence. }
  split; [done|]. split; [|by apply Hso].
  by apply (NoDup_fmap_eq (λ l : Agent * Session, session_id l.2)
              (closeListeners (the_socket w r))).
Qed.

(** X10: a session that receives frames is a session that is deregistered.
    In every reachable world the 'message' listeners of a socket and its
    'close' listeners belong to the same sessions, in the same order. *)
Theorem listeners_come_in_pairs `{Platform} es r :
  messageListeners (the_socket (run es init) r) =
  closeListeners (the_socket (run es init) r).
Proof. apply sessions_wf_run, sessions_wf_init. Qed.

Lemma next_uuids_S `{Platform} n k :
  next_uuids n (S k) = uuid n :: next_uuids (S n) k.
Proof.
  unfold next_uuids. simpl. rewrite Nat.add_0_r. f_equal.
  rewrite <- fmap_S_seq, <- list_fmap_compose.
  apply list_fmap_ext. intros _ i _. simpl. f_equal. lia.
Qed.

Lemma dispatch_on_connection_socketIds `{Platform} r agents w :
  socketIds w ⊆ socketIds (dispatch (on_connection r) agents w).
Proof.
  apply (dispatch_ind (λ w', socketIds w ⊆ socketIds w')); [|done].
  intros a w' Hw'. etrans; [exact Hw'|]. apply on_connection_socketIds.
Qed.

Lemma dispatch_on_connection_fresh `{Platform} r agents w :
  let ids := next_uuids (uuidCalls w) (length agents) in
  NoDup ids → Forall (λ i, has_socketId w i = false) ids →
  let w' := dispatch (on_connection r) agents w in
  uuidCalls w' = uuidCalls w + length agents ∧
  connectionListeners w' = connectionListeners w ∧
  (∀ i, i ∈ ids → socketIds w' !! i = Some r) ∧
  ∀ r', messageListeners (the_socket w' r') =
          (if decide (r = r') then
             messageListeners (the_socket w r) ++ new_sessions r agents ids
           else messageListeners (the_socket w r')) ∧
        closeListeners (the_socket w' r') =
          (if decide (r = r') then
             closeListeners (the_socket w r) ++ new_sessions r agents ids
           else closeListeners (the_socket w r')).
Proof.
  revert w. induction agents as [|a agents IH]; intros w ids Hnd Hfresh.
  { simpl. split; [lia|]. split; [done|]. split; [by intros i ?%elem_of_nil|].
    intros r'. unfold new_sessions. simpl. rewrite !app_nil_r.
    by destruct (decide (r = r')) as [<-|]. }
  subst ids. change (length (a :: agents)) with (S (length agents)) in *.
  rewrite next_uuids_S in Hnd, Hfresh |- *.
  apply NoDup_cons in Hnd as [Hni Hnd].
  apply Forall_cons in Hfresh as [Hf0 Hfresh].
  destruct (on_connection_listeners r a w Hf0) as (Hu & Hi & Hc & Hl).
  set (w1 := on_connection r a w) in *.
  destruct (IH w1) as (Hu' & Hc' & Hi' & Hl').
  { by rewrite Hu. }
  { rewrite Hu. apply Forall_forall. intros i Hin.
    rewrite Forall_forall in Hfresh. specialize (Hfresh i Hin).
    unfold has_socketId in *. rewrite Hi.
    rewrite lookup_insert_ne; [done|]. intros <-. done. }
  unfold dispatch in *. simpl. fold w1. rewrite Hu in Hu', Hi', Hl'.
  split; [lia|]. split; [congruence|]. split.
  - intros i [->|Hin]%elem_of_cons; [|by apply Hi'].
    eapply lookup_weaken; [|apply (dispatch_on_connection_socketIds r agents w1)].
    rewrite Hi. apply lookup_insert_eq.
  - intros r'. destruct (Hl' r') as [Hm' Hcl']. destruct (Hl r') as [Hm Hcl].
    rewrite Hm', Hcl'. unfold new_sessions. simpl.
    destruct (decide (r = r')) as [<-|Hne]; [|done].
    rewrite Hm, Hcl. by rewrite <- !app_assoc.
Qed.

(** X11: every started 'connection' listener creates its own session.  When
    [start] has been called [n] times and the [n] ids drawn for a new
    connection are distinct and not yet in use, the connection gets [n]
    sessions, one per call of [start] and in that order, each with its
    'message' and its 'close' listener and its record in [socketIds]; no
    other socket is touched. *)
Theorem every_start_creates_a_session `{Platform} r w :
  let agents := connectionListeners w in
  let ids := next_uuids (uuidCalls w) (length agents) in
  NoDup ids → Forall (λ i, has_socketId w i = false) ids →
  let w' := step (EvConnection r) w in
  messageListeners (the_socket w' r) =
    messageListeners (the_socket w r) ++ new_sessions r agents ids ∧
  closeListeners (the_socket w' r) =
    closeListeners (the_socket w r) ++ new_sessions r agents ids ∧
  (∀ i, i ∈ ids → socketIds w' !! i = Some r) ∧
  (∀ r', r' ≠ r → the_socket w' r' = the_socket w r').
Proof.
  intros agents ids Hnd Hfresh w'.
  destruct (dispatch_on_connection_fresh r agents w Hnd Hfresh)
    as (_ & _ & Hi & Hl).
  destruct (Hl r) as [Hm Hc]. rewrite decide_True in Hm, Hc by done.
  split; [done|]. split; [done|]. split; [done|].
  intros r' Hne. subst w'. simpl.
  apply (dispatch_ind (λ w0, the_socket w0 r' = the_socket w r')); [|done].
  intros a w0 <-. unfold on_connection, next_uuid, listenOnWebSocketMessages. simpl.
  destruct (has_socketId _ _); [done|].
  unfold the_socket, upd_socket. simpl. by rewrite !lookup_insert_ne.
Qed.

(** X12: a connection whose id is in use gets no session.  When [start] has
    been called once and the id drawn for a new connection is already a key
    of [socketIds] (or the name of a property every object inherits, such as
    'constructor'), the listener only logs: no listener is put on the socket
    and [socketIds] is unchanged, so that the frames of the connection are
    forwarded to no one. *)
Theorem connection_with_used_id_is_ignored `{Platform} r a w data url :
  connectionListeners w = [a] →
  has_socketId w (uuid (uuidCalls w)) = true →
  let w' := step (EvConnection r) w in
  sockets w' = sockets w ∧ socketIds w' = socketIds w ∧
  trace w' = trace w ++
    [Log LvlDebug "Socket connected." None;
     Log LvlDebug ("Socket with id " ++ uuid (uuidCalls w) ++ " already exists.")
       None] ∧
  (messageListeners (the_socket w r) = [] →
   trace (step (EvMessage r data url) w') = trace w').
Proof.
  intros Ha Hused w'. subst w'. simpl. rewrite Ha. unfold dispatch. simpl.
  destruct (on_connection_duplicate r a w Hused) as (Hs & Hi & _ & _ & Ht).
  split; [done|]. split; [done|]. split; [done|].
  intros Hnone. unfold the_socket. rewrite Hs.
  change (default new_socket (sockets w !! r)) with (the_socket w r).
  by rewrite Hnone.
Qed.




Lemma inbound_app `{Platform} tr1 tr2 : inbound (tr1 ++ tr2) = inbound tr1 ++ inbound tr2.
Proof. apply omap_app. Qed.

Lemma inbound_forwarded `{Platform} url j (ls : list (Agent * Session)) :
  inbound (ls ≫= forwarded url j) = (λ l, (l.1, j, l.2)) <$> ls.
Proof.
  induction ls as [|l ls IH]; [done|].
  by rewrite bind_cons, inbound_app, IH.
Qed.

Lemma inbound_received_log `{Platform} url e (ls : list (Agent * Session)) :
  inbound (ls ≫= (λ _, received_log url e)) = [].
Proof.
  induction ls as [|l ls IH]; [done|].
  by rewrite bind_cons, inbound_app, IH.
Qed.

(** X13: frames are forwarded in the order they arrive.  Over any sequence of
    'message' events on a socket, the message receiver is called with exactly
    the frames that parse, in the order of their arrival, once for each
    'message' listener of the socket; the frames that do not parse are
    skipped and change nothing for the others. *)
Theorem frames_are_forwarded_in_order `{Platform} r frames w :
  inbound (trace (run (messages r frames) w)) =
  inbound (trace w) ++
  parsed frames ≫= (λ j, (λ l, (l.1, j, l.2)) <$> messageListeners (the_socket w r)).
Proof.
  revert w. induction frames as [|[data url] frames IH]; intros w.
  { simpl. by rewrite app_nil_r. }
  unfold messages. rewrite fmap_cons, run_cons. fold (messages r frames).
  rewrite IH. simpl fst. simpl snd.
  set (ls := messageListeners (the_socket w r)).
  assert (sockets (step (EvMessage r data url) w) = sockets w ∧
          inbound (trace (step (EvMessage r data url) w)) =
          inbound (trace w) ++
          match JSON_parse data with
          | inl j => (λ l, (l.1, j, l.2)) <$> ls
          | inr _ => []
          end) as [Hs Ht].
  { destruct (JSON_parse data) as [j|e] eqn:Hp.
    - destruct (dispatch_on_message_inl data url j ls w Hp) as (Hs & Ht).
      split; [exact Hs|].
      change (step (EvMessage r data url) w) with (dispatch (on_message data url) ls w).
      by rewrite Ht, inbound_app, inbound_forwarded.
    - destruct (dispatch_on_message_inr data url e ls w Hp) as (Hs & Ht).
      split; [exact Hs|].
      change (step (EvMessage r data url) w) with (dispatch (on_message data url) ls w).
      by rewrite Ht, inbound_app, inbound_received_log. }
  assert (the_socket (step (EvMessage r data url) w) r = the_socket w r) as ->
    by (unfold the_socket; by rewrite Hs).
  rewrite Ht. fold ls. unfold parsed. simpl.
  destruct (JSON_parse data); simpl; by rewrite <- ?app_assoc, ?app_nil_r.
Qed.

(** ** [stop] *)

Import WsInboundTransportStop.

Lemma connectionListeners_step `{Platform} e w :
  connectionListeners (step e w) =
  match e with
  | EvStart agent => connectionListeners w ++ [agent]
  | _ => connectionListeners w
  end.
Proof.
  destruct (send_path e) eqn:Hsp.
  { rewrite (cf_connectionListeners _ _
      (connection_frame_step e w (Is_true_true_2 _ Hsp))). by destruct e. }
  destruct e; try done; simpl.
  - apply (dispatch_ind (λ w', connectionListeners w' = connectionListeners w));
      [|done].
    intros a w' <-. unfold on_connection, next_uuid. simpl.
    by destruct (has_socketId _ _).
  - apply (dispatch_ind (λ w', connectionListeners w' = connectionListeners w));
      [|done].
    intros a w' <-. unfold on_message. by destruct (JSON_parse _).
  - case_decide; [|done]. by destruct error.
  - apply (dispatch_ind (λ w', connectionListeners w' = connectionListeners w));
      [|done].
    by intros a w' <-.
  - unfold close. by case_decide.
Qed.

Lemma transport_run_snoc `{Platform} es e t :
  transport_run (es ++ [e]) t = transport_step e (transport_run es t).
Proof. unfold transport_run. by rewrite foldl_app. Qed.

Lemma never_started_run `{Platform} es :
  never_started es = true →
  connectionListeners (world (transport_run es transport_init)) = [].
Proof.
  induction es as [|e es IH] using rev_ind; [done|].
  unfold never_started. rewrite forallb_app. fold (never_started es). simpl.
  intros [Hes He]%andb_true_iff. rewrite transport_run_snoc.
  specialize (IH Hes). destruct e as [e| |k error]; simpl.
  - rewrite connectionListeners_step, IH. by destruct e.
  - unfold stop. by rewrite IH.
  - unfold on_server_closed. by destruct (_ !! k) as [[]|].
Qed.

(** X14: [stop] before [start] fails and does not close the server.  As long
    as [start] has never been called, whatever else has happened, [stop()]
    returns a promise that is rejected at once (the logger it calls is not
    set yet), [socketServer.close] is not called and nothing is logged. *)
Theorem stop_before_start_fails `{Platform} es :
  never_started es = true →
  let t := transport_run es transport_init in
  stops (stop t).1 !! (stop t).2 = Some (StopRejected LoggerUnset) ∧
  serverCloses (stop t).1 = serverCloses t ∧
  world (stop t).1 = world t.
Proof.
  intros Hes t. pose proof (never_started_run es Hes) as Hnone. fold t in Hnone.
  unfold stop. rewrite Hnone. simpl.
  split; [by apply list_lookup_middle|done].
Qed.

Lemma on_server_closed_pending `{Platform} k error t :
  stops t !! k = Some StopPending →
  on_server_closed k error t =
  mkTransport _ (world t) (serverCloses t)
    (<[k := match error with
            | Some e => StopRejected (ServerError e)
            | None => StopResolved
            end]> (stops t)).
Proof. intros Hk. unfold on_server_closed. by rewrite Hk. Qed.

Lemma on_server_closed_settled `{Platform} k error t :
  stops t !! k ≠ Some StopPending → on_server_closed k error t = t.
Proof.
  intros Hk. unfold on_server_closed. by destruct (stops t !! k) as [[]|].
Qed.

(** X15: [stop] closes the server and nothing else.  Once [start] has been
    called, [stop()] logs, calls [socketServer.close] once and returns a
    pending promise; the promise is rejected with the server's error if the
    callback gets one and resolved otherwise, and a second call of the
    callback does not change it; the sockets, their sessions and listeners,
    [socketIds] and the 'connection' listeners are what they were, so that
    open sessions stay open. *)
Theorem stop_closes_only_the_server `{Platform} t error error' :
  connectionListeners (world t) ≠ [] →
  let k := (stop t).2 in
  let t1 := (stop t).1 in
  let t2 := on_server_closed k error t1 in
  stops t1 !! k = Some StopPending ∧
  serverCloses t1 = S (serverCloses t) ∧
  trace (world t1) = trace (world t) ++ [Log LvlDebug "Closing WebSocket Server" None] ∧
  stops t2 !! k =
    Some (match error with
          | Some e => StopRejected (ServerError e)
          | None => StopResolved
          end) ∧
  on_server_closed k error' t2 = t2 ∧
  sockets (world t2) = sockets (world t) ∧
  socketIds (world t2) = socketIds (world t) ∧
  connectionListeners (world t2) = connectionListeners (world t) ∧
  serverCloses t2 = S (serverCloses t).
Proof.
  intros Hstarted k t1 t2. subst k t1 t2. unfold stop.
  destruct (connectionListeners (world t)) as [|a agents] eqn:Ha; [done|]. simpl.
  assert (Hk : (stops t ++ [StopPending]) !! length (stops t) = Some StopPending)
    by by apply list_lookup_middle.
  assert (length (stops t) < length (stops t ++ [StopPending])) as Hlen
    by (rewrite length_app; simpl; lia).
  split; [done|]. split; [done|]. split; [done|].
  rewrite on_server_closed_pending by done. simpl.
  split; [by apply list_lookup_insert_eq|].
  split; [|done].
  apply on_server_closed_settled. simpl. rewrite list_lookup_insert_eq by done.
  by destruct error.
Qed.

(** ** The settings of the mediator sample *)

Section mediator_properties.

Import Mediator.

Lemma string_app_assoc (a b c : string) : (a ++ (b ++ c) = (a ++ b) ++ c)%string.
Proof.
  induction a as [|x a IH]; [done|].
  change (String x (a ++ (b ++ c)) = String x ((a ++ b) ++ c))%string. by f_equal.
Qed.

Lemma split_comma_not_nil s : split_comma s ≠ [].
Proof.
  destruct s as [|c s]; [done|]. simpl.
  destruct (Ascii.eqb c comma); [done|]. by destruct (split_comma s).
Qed.

Lemma split_comma_concat s : String.concat "," (split_comma s) = s.
Proof.
  induction s as [|c s IH]; [done|]. simpl.
  destruct (Ascii.eqb c comma) eqn:Hc.
  - apply Ascii.eqb_eq in Hc as ->.
    pose proof (split_comma_not_nil s) as Hne.
    destruct (split_comma s) as [|h t] eqn:Hs; [done|]. simpl in *. by rewrite IH.
  - pose proof (split_comma_not_nil s) as Hne.
    destruct (split_comma s) as [|h t] eqn:Hs; [done|].
    destruct t as [|h' t]; simpl in *; by rewrite <- IH.
Qed.

Lemma split_comma_no_comma s : Forall (λ e, has_comma e = false) (split_comma s).
Proof.
  induction s as [|c s IH]; [by repeat constructor|]. simpl.
  destruct (Ascii.eqb c comma) eqn:Hc; [by constructor|].
  destruct (split_comma s) as [|h t]; [by repeat constructor; simpl; rewrite Hc|].
  apply Forall_cons in IH as [Hh Ht]. constructor; [|done].
  simpl. by rewrite Hc, Hh.
Qed.

Lemma or_else_not_empty v d : d ≠ "" → or_else v d ≠ "".
Proof. intros Hd. destruct v as [s|]; simpl; [|done]. by case_bool_decide. Qed.

Lemma or_else_delete (env : gmap string string) x v d :
  env !! x = Some "" → or_else (delete x env !! v) d = or_else (env !! v) d.
Proof.
  intros Hx. rewrite lookup_delete. case_decide; [subst|done]. by rewrite Hx.
Qed.

End mediator_properties.

(** X16: the settings of the mediator are never empty, and an empty variable
    counts as one that is not set.  Whatever the environment, the database
    host, account and password, the wallet name and key and the agent label
    are not the empty string; and removing a variable that is set to the empty
    string changes none of the settings read with [||] or [? :]. *)
Theorem settings_are_never_empty Number_text (env : gmap string string) :
  Mediator.db_host env ≠ "" ∧ Mediator.account env ≠ "" ∧
  Mediator.password env ≠ "" ∧ Mediator.walletName env ≠ "" ∧
  Mediator.label env ≠ "" ∧ Mediator.walletKey env ≠ "" ∧
  ∀ x, env !! x = Some "" →
       Mediator.scalar_settings Number_text (delete x env) =
       Mediator.scalar_settings Number_text env.
Proof.
  repeat split; try (by apply or_else_not_empty).
  - unfold Mediator.walletName. destruct (env !! "POSTGRESQL_DBNAME") as [s|];
      [|by apply or_else_not_empty].
    case_bool_decide; [by apply or_else_not_empty|]. by destruct s.
  - intros x Hx.
    assert (∀ v, delete x env !! v = env !! v ∨
                 (delete x env !! v = None ∧ env !! v = Some "")) as Hv.
    { intros v. rewrite lookup_delete. case_decide; subst; eauto. }
    unfold Mediator.scalar_settings, Mediator.url, Mediator.port,
      Mediator.db_port, Mediator.db_host, Mediator.account, Mediator.password,
      Mediator.walletName, Mediator.label, Mediator.walletKey.
    rewrite !(or_else_delete env x) by done.
    destruct (Hv "AGENT_PORT") as [->|[-> ->]];
    destruct (Hv "POSTGRESQL_PORT") as [->|[-> ->]];
    destruct (Hv "POSTGRESQL_DBNAME") as [->|[-> ->]]; done.
Qed.

(** X17: the endpoints of the mediator.  The list of endpoints is never
    empty.  When AGENT_ENDPOINTS is set, even to the empty string, the
    endpoints are its pieces between commas: joined with commas they give the
    variable back and none contains a comma, so that an empty variable gives
    the one endpoint [""] and not the default, and the domain of an
    invitation is then 'undefined/invitation'.  When it is not set, the
    endpoints are the http and the ws address of localhost at the port, and
    the domain of an invitation is the http one followed by '/invitation'. *)
Theorem endpoints_follow_the_environment Number_text (env : gmap string string) :
  Mediator.endpoints Number_text env ≠ [] ∧
  (∀ s, env !! "AGENT_ENDPOINTS" = Some s →
     String.concat "," (Mediator.endpoints Number_text env) = s ∧
     Forall (λ e, Mediator.has_comma e = false) (Mediator.endpoints Number_text env) ∧
     (s = "" →
      Mediator.endpoints Number_text env = [""] ∧
      Mediator.invitation_domain (Mediator.endpoints Number_text env) =
        "undefined/invitation")) ∧
  (env !! "AGENT_ENDPOINTS" = None →
     Mediator.endpoints Number_text env =
       [("http://localhost:" ++ Mediator.port Number_text env)%string;
        ("ws://localhost:" ++ Mediator.port Number_text env)%string] ∧
     Mediator.invitation_domain (Mediator.endpoints Number_text env) =
       ("http://localhost:" ++ Mediator.port Number_text env ++ "/invitation")%string).
Proof.
  unfold Mediator.invitation_domain, Mediator.endpoints.
  destruct (env !! "AGENT_ENDPOINTS") as [s|] eqn:Hs.
  - split; [apply split_comma_not_nil|]. split; [|done].
    intros ? [= <-]. split; [apply split_comma_concat|].
    split; [apply split_comma_no_comma|]. by intros ->.
  - split; [done|]. split; [done|]. intros _. split; [done|]. simpl.
    by rewrite string_app_assoc.
Qed.

(** ** The logger of the mediator sample *)

Section logger_properties.

Import MediatorLogger.

Context {Data : Type} (copy : Data → Data + string).

Lemma method_at i f :
  methods Data copy !! i = Some f →
  ∃ level m, f = (λ this, log Data copy this level) ∧
             tsLogLevelNumberMap level = Some i ∧
             tsLogLevelStringMap level = Some m ∧ method_id m = Some i.
Proof.
  intros Hf.
  do 7 (destruct i as [|i]; [injection Hf as <-; do 2 eexists; by repeat split|]).
  done.
Qed.

Lemma log_outcome this level message data m i :
  logLevel this ≠ LogLevel.off →
  tsLogLevelStringMap level = Some m → method_id m = Some i →
  log Data copy this level message data =
    match from_option (λ d, sum_map Some id (copy d)) (inl None) data with
    | inl data' =>
        if i <? default 0 (minLevel (logger this)) then Returned Data None
        else Returned Data (Some (mkLogRecord Data m (name (logger this))
                                    message data'))
    | inr e => Threw Data e
    end.
Proof.
  intros Hoff Hm Hi. unfold log, call. rewrite bool_decide_false by done.
  destruct data as [d|]; simpl; [destruct (copy d); simpl|]; by rewrite ?Hm, ?Hi.
Qed.

Lemma constructor_minLevel L name0 parent :
  logLevel (constructor L name0 parent) = L ∧
  name (logger (constructor L name0 parent)) = name0 ∧
  minLevel (logger (constructor L name0 parent)) = tsLogLevelNumberMap L.
Proof. by destruct parent, L. Qed.

End logger_properties.

(** X18: the logger writes from its level up.  For a logger made by the
    constructor at level [L], with or without a parent, and the [i]-th of the
    logging methods test, trace, debug, info, warn, error, fatal: at level off
    the method returns without a record, whatever the data; at another level
    data that cannot be copied through JSON makes the method throw, also when
    the message is below the level; otherwise a record is written exactly when
    [L] is not above the level of the method, and the record carries the name
    of the logger, the message and the tslog method of that level. *)
Theorem logger_writes_from_its_level_up {Data : Type} (copy : Data → Data + string)
    (L : MediatorLogger.LogLevel.t) (name : option string)
    (parent : option MediatorLogger.TsLogger) (i : nat)
    (f : MediatorLogger.MediatorLogger → string → option Data → MediatorLogger.Outcome Data)
    (message : string) (data : option Data) :
  MediatorLogger.methods Data copy !! i = Some f →
  (L = MediatorLogger.LogLevel.off →
     f (MediatorLogger.constructor L name parent) message data =
       MediatorLogger.Returned Data None) ∧
  (∀ d e, L ≠ MediatorLogger.LogLevel.off → data = Some d → copy d = inr e →
     f (MediatorLogger.constructor L name parent) message data =
       MediatorLogger.Threw Data e) ∧
  ((∀ d, data = Some d → ∃ d', copy d = inl d') →
     (MediatorLogger.written Data
        (f (MediatorLogger.constructor L name parent) message data) = true ↔
      ∃ n, MediatorLogger.tsLogLevelNumberMap L = Some n ∧ n ≤ i) ∧
     ∀ r, f (MediatorLogger.constructor L name parent) message data =
            MediatorLogger.Returned Data (Some r) →
          MediatorLogger.record_logger Data r = name ∧
          MediatorLogger.record_message Data r = message ∧
          MediatorLogger.method_id (MediatorLogger.record_method Data r) = Some i).
Proof.
  intros Hf. destruct (method_at copy i f Hf) as (level & m & -> & Hn & Hm & Hi).
  destruct (constructor_minLevel L name parent) as (HL & Hname & Hmin).
  split; [|split].
  - intros ->. unfold MediatorLogger.log. by rewrite HL.
  - intros d e Hoff -> Hd.
    rewrite (log_outcome copy _ _ _ _ m i) by (by rewrite ?HL). simpl. by rewrite Hd.
  - intros Hcopy.
    destruct (decide (L = MediatorLogger.LogLevel.off)) as [->|Hoff].
    { unfold MediatorLogger.log. rewrite HL. simpl. split; [|done].
      split; [done|]. by intros (n & [=] & _). }
    rewrite (log_outcome copy _ _ _ _ m i) by (by rewrite ?HL).
    rewrite Hmin, Hname.
    assert (∃ data', from_option (λ d, sum_map Some id (copy d)) (inl None) data = inl data')
      as [data' ->].
    { destruct data as [d|]; simpl; [|by eexists].
      destruct (Hcopy d eq_refl) as [d' ->]. by eexists. }
    assert (∃ n, MediatorLogger.tsLogLevelNumberMap L = Some n) as [n Hn'].
    { destruct L; by eauto. }
    rewrite Hn'. simpl. destruct (Nat.ltb_spec i n) as [Hlt|Hle]; simpl.
    + split; [|done]. split; [done|]. intros (? & [= <-] & ?). lia.
    + split; [split; [by eauto|done]|]. intros r [= <-]. simpl.
      by repeat split.
Qed.

(** X19: a logger derived with [fromLogger] filters as the one it comes
    from.  The derived logger has the level of the first, whatever logger the
    first wraps, and keeps its template and style; and when the first was made
    by the constructor at level [L], every call on the derived logger has the
    outcome of the same call on a logger that the constructor makes at level
    [L] under the new name. *)
Theorem fromLogger_keeps_the_level {Data : Type} (copy : Data → Data + string)
    (logger0 : MediatorLogger.MediatorLogger) (L : MediatorLogger.LogLevel.t)
    (name0 name : option string) (parent parent' : option MediatorLogger.TsLogger)
    (level : MediatorLogger.LogLevel.t) (message : string) (data : option Data) :
  MediatorLogger.logLevel (MediatorLogger.fromLogger logger0 name) =
    MediatorLogger.logLevel logger0 ∧
  MediatorLogger.prettyLogTemplate
    (MediatorLogger.logger (MediatorLogger.fromLogger logger0 name)) =
    MediatorLogger.prettyLogTemplate (MediatorLogger.logger logger0) ∧
  MediatorLogger.stylePrettyLogs
    (MediatorLogger.logger (MediatorLogger.fromLogger logger0 name)) =
    MediatorLogger.stylePrettyLogs (MediatorLogger.logger logger0) ∧
  MediatorLogger.log Data copy
    (MediatorLogger.fromLogger (MediatorLogger.constructor L name0 parent) name)
    level message data =
  MediatorLogger.log Data copy (MediatorLogger.constructor L name parent')
    level message data.
Proof.
  repeat split.
  unfold MediatorLogger.fromLogger.
  destruct (constructor_minLevel L name0 parent) as (HL & _ & _).
  destruct (constructor_minLevel L name parent') as (HL1 & Hname & Hmin).
  destruct (constructor_minLevel L name
    (Some (MediatorLogger.logger (MediatorLogger.constructor L name0 parent))))
    as (HL' & Hname' & Hmin').
  rewrite HL. unfold MediatorLogger.log, MediatorLogger.call.
  by rewrite HL1, HL', Hmin, Hmin', Hname, Hname'.
Qed.

(** ** The further properties at concrete inputs *)


(** X2 where socket 0 is open and [send] has been called on it. *)
Lemma waiting_send_is_rejected_by_its_timer_witness :
  calls (run [EvReadyState 0 OPEN; EvSend (H:=demo) session0 "m"] init) !! 0 =
    Some {| success := false; timeoutId := Some 0; promise := Pending |} ∧
  ∃ tid,
    timeoutId {| success := false; timeoutId := Some 0; promise := Pending |} =
      Some tid ∧
    promise_of
      (run [EvTick delay_ms; EvTimer tid]
         (run [EvReadyState 0 OPEN; EvSend (H:=demo) session0 "m"] init)) 0 =
      Some (Rejected ping_error).
Proof.
  assert (H1 : calls (run [EvReadyState 0 OPEN; EvSend (H:=demo) session0 "m"] init) !! 0 =
      Some {| success := false; timeoutId := Some 0; promise := Pending |})
    by (vm_compute; reflexivity).
  split; [exact H1|].
  exact (waiting_send_is_rejected_by_its_timer (H:=demo)
    [EvReadyState 0 OPEN; EvSend (H:=demo) session0 "m"] 0
    {| success := false; timeoutId := Some 0; promise := Pending |}
    H1 eq_refl eq_refl).
Defined.

(** X3 where the send has timed out. *)
Lemma send_is_rejected_in_two_ways_witness :
  promise_of (run (timed_out_send (H:=demo) "m") init) 0 =
    Some (Rejected ping_error) ∧
  ((ping_error = closed_error ∧
    sends_of 0 (run (timed_out_send (H:=demo) "m") init) = [] ∧
    ∀ r, subscribed 0 (run (timed_out_send (H:=demo) "m") init) r = []) ∨
   ping_error = ping_error).
Proof.
  assert (H1 : promise_of (run (timed_out_send (H:=demo) "m") init) 0 =
      Some (Rejected ping_error)) by (vm_compute; reflexivity).
  split; [exact H1|].
  exact (send_is_rejected_in_two_ways (H:=demo) (timed_out_send (H:=demo) "m") 0
    ping_error H1).
Defined.

(** X4 where the send has timed out and the pong and the end of the write
    come afterwards. *)
Lemma rejection_is_final_witness :
  promise_of (run (timed_out_send (H:=demo) "m") init) 0 =
    Some (Rejected ping_error) ∧
  promise_of
    (run (timed_out_send (H:=demo) "m" ++ [EvPong 0; EvSent 0 None]) init) 0 =
    Some (Rejected ping_error).
Proof.
  assert (H1 : promise_of (run (timed_out_send (H:=demo) "m") init) 0 =
      Some (Rejected ping_error)) by (vm_compute; reflexivity).
  split; [exact H1|].
  exact (rejection_is_final (H:=demo) (timed_out_send (H:=demo) "m")
    [EvPong 0; EvSent 0 None] 0 ping_error H1).
Defined.

(** X6 where an accepted socket carries one send from the ping to the end of
    the write. *)
Lemma send_leaves_the_connection_alone_witness :
  forallb (send_path (H:=demo))
    [EvSend (H:=demo) session0 "m"; EvTick 500; EvPong 0; EvSent 0 None] = true ∧
  connection_frame (run accepted init)
    (run [EvSend (H:=demo) session0 "m"; EvTick 500; EvPong 0; EvSent 0 None]
       (run accepted init)).
Proof.
  assert (H1 : forallb (send_path (H:=demo))
      [EvSend (H:=demo) session0 "m"; EvTick 500; EvPong 0; EvSent 0 None] = true)
    by reflexivity.
  split; [exact H1|].
  exact (send_leaves_the_connection_alone (H:=demo)
    [EvSend (H:=demo) session0 "m"; EvTick 500; EvPong 0; EvSent 0 None]
    (run accepted init) H1).
Defined.

(** X7 where two messages are sent on the open socket 0 before its pong. *)
Lemma one_pong_answers_concurrent_sends_witness :
  readyState (the_socket (run (H:=demo) [EvReadyState 0 OPEN] init)
                (session_socket session0)) = OPEN ∧
  (send (H:=demo) session0 "m1" (run [EvReadyState 0 OPEN] init)).2 =
    length (calls (run (H:=demo) [EvReadyState 0 OPEN] init)).
Proof.
  assert (H1 : readyState (the_socket (run (H:=demo) [EvReadyState 0 OPEN] init)
                (session_socket session0)) = OPEN) by (vm_compute; reflexivity).
  split; [exact H1|].
  exact (proj1 (one_pong_answers_concurrent_sends (H:=demo) session0 "m1" "m2"
    (run [EvReadyState 0 OPEN] init) H1)).
Defined.

(** X9 where the transport has accepted socket 0. *)
Lemma session_ids_are_unique_witness :
  (agent0, session0) ∈ closeListeners (the_socket (run accepted init) 0) ∧
  (0 = 0 ∧ (agent0, session0) = (agent0, session0) ∧
   session_socket (agent0, session0).2 = 0).
Proof.
  assert (H1 : (agent0, session0) ∈ closeListeners (the_socket (run accepted init) 0))
    by (vm_compute; left).
  split; [exact H1|].
  exact (session_ids_are_unique (H:=demo) accepted 0 0 (agent0, session0)
    (agent0, session0) H1 H1 eq_refl).
Defined.

(** X11 where [start] has been called twice before socket 0 connects. *)
Lemma every_start_creates_a_session_witness :
  NoDup (next_uuids (H:=demo)
           (uuidCalls (run (H:=demo) [EvStart agent0; EvStart agent0] init))
           (length (connectionListeners
                      (run (H:=demo) [EvStart agent0; EvStart agent0] init)))) ∧
  messageListeners
    (the_socket
       (step (EvConnection 0) (run (H:=demo) [EvStart agent0; EvStart agent0] init))
       0) =
    messageListeners
      (the_socket (run (H:=demo) [EvStart agent0; EvStart agent0] init) 0) ++
    new_sessions 0
      (connectionListeners (run (H:=demo) [EvStart agent0; EvStart agent0] init))
      (next_uuids (H:=demo)
         (uuidCalls (run (H:=demo) [EvStart agent0; EvStart agent0] init))
         (length (connectionListeners
                    (run (H:=demo) [EvStart agent0; EvStart agent0] init)))).
Proof.
  assert (H1 : NoDup (next_uuids (H:=demo)
           (uuidCalls (run (H:=demo) [EvStart agent0; EvStart agent0] init))
           (length (connectionListeners
                      (run (H:=demo) [EvStart agent0; EvStart agent0] init)))))
    by (vm_compute; apply NoDup_cons; split;
        [by intros [=]%list_elem_of_singleton | apply NoDup_singleton]).
  assert (H2 : Forall
      (λ i, has_socketId (run (H:=demo) [EvStart agent0; EvStart agent0] init) i = false)
      (next_uuids (H:=demo)
         (uuidCalls (run (H:=demo) [EvStart agent0; EvStart agent0] init))
         (length (connectionListeners
                    (run (H:=demo) [EvStart agent0; EvStart agent0] init)))))
    by (vm_compute; repeat constructor).
  split; [exact H1|].
  exact (proj1 (every_start_creates_a_session (H:=demo) 0
    (run [EvStart agent0; EvStart agent0] init) H1 H2)).
Defined.

(** X12 where [uuid] gives the id of socket 0 again when socket 1 connects. *)
Lemma connection_with_used_id_is_ignored_witness :
  connectionListeners
    (run (H:=colliding) [EvStart agent0; EvConnection 0] init) = [agent0] ∧
  has_socketId (run (H:=colliding) [EvStart agent0; EvConnection 0] init)
    (uuid (Platform:=colliding)
       (uuidCalls (run (H:=colliding) [EvStart agent0; EvConnection 0] init))) =
    true ∧
  sockets
    (step (EvConnection 1)
       (run (H:=colliding) [EvStart agent0; EvConnection 0] init)) =
    sockets (run (H:=colliding) [EvStart agent0; EvConnection 0] init).
Proof.
  assert (H1 : connectionListeners
      (run (H:=colliding) [EvStart agent0; EvConnection 0] init) = [agent0])
    by (vm_compute; reflexivity).
  assert (H2 : has_socketId (run (H:=colliding) [EvStart agent0; EvConnection 0] init)
      (uuid (Platform:=colliding)
         (uuidCalls (run (H:=colliding) [EvStart agent0; EvConnection 0] init))) =
      true) by (vm_compute; reflexivity).
  split; [exact H1|]. split; [exact H2|].
  exact (proj1 (connection_with_used_id_is_ignored (H:=colliding) 1 agent0
    (run [EvStart agent0; EvConnection 0] init) "{m}" "ws://peer" H1 H2)).
Defined.

(** X14 where a socket connects and [stop] has been called once already. *)
Lemma stop_before_start_fails_witness :
  never_started (H:=demo) [TeWorld (EvConnection 0); TeStop] = true ∧
  serverCloses
    (stop (transport_run (H:=demo) [TeWorld (EvConnection 0); TeStop]
             transport_init)).1 =
    serverCloses
      (transport_run (H:=demo) [TeWorld (EvConnection 0); TeStop] transport_init).
Proof.
  assert (H1 : never_started (H:=demo) [TeWorld (EvConnection 0); TeStop] = true)
    by reflexivity.
  split; [exact H1|].
  exact (proj1 (proj2 (stop_before_start_fails (H:=demo)
    [TeWorld (EvConnection 0); TeStop] H1))).
Defined.

(** X15 where the transport has been started and the server reports an
    error. *)
Lemma stop_closes_only_the_server_witness :
  connectionListeners
    (world (transport_run (H:=demo) [TeWorld (EvStart agent0)] transport_init)) ≠ [] ∧
  serverCloses
    (stop (transport_run (H:=demo) [TeWorld (EvStart agent0)] transport_init)).1 =
    S (serverCloses
         (transport_run (H:=demo) [TeWorld (EvStart agent0)] transport_init)).
Proof.
  assert (H1 : connectionListeners
      (world (transport_run (H:=demo) [TeWorld (EvStart agent0)] transport_init)) ≠ [])
    by (vm_compute; discriminate).
  split; [exact H1|].
  exact (proj1 (proj2 (stop_closes_only_the_server (H:=demo)
    (transport_run [TeWorld (EvStart agent0)] transport_init)
    (Some "EADDRINUSE") None H1))).
Defined.

(** X18 for [info] on a logger at level info, without data. *)
Lemma logger_writes_from_its_level_up_witness :
  MediatorLogger.methods string inl !! 3 = Some (MediatorLogger.info string inl) ∧
  (MediatorLogger.written string
     (MediatorLogger.info string inl
        (MediatorLogger.constructor MediatorLogger.LogLevel.info None None)
        "Received invitation request" None) = true ↔
   ∃ n, MediatorLogger.tsLogLevelNumberMap MediatorLogger.LogLevel.info = Some n ∧
        n ≤ 3).
Proof.
  assert (H1 : MediatorLogger.methods string inl !! 3 =
               Some (MediatorLogger.info string inl)) by reflexivity.
  assert (H2 : ∀ d : string, @None string = Some d →
               ∃ d', @inl string string d = inl d') by (intros d Hd; discriminate Hd).
  split; [exact H1|].
  exact (proj1 (proj2 (proj2 (logger_writes_from_its_level_up inl
    MediatorLogger.LogLevel.info None None 3 (MediatorLogger.info string inl)
    "Received invitation request" None H1)) H2)).
Defined.
